(** * Image Variations: fan-out, reconciliation and completion detection

    A shallow embedding of [server.mjs]: the Airtable-backed batch record,
    the id-set string encoding ([mergeIds] / [parseIds]), the completion
    reconciler ([appendOutputs] followed by [markCompleted]), the poller
    ([pollUntilDone]), the fan-out coordinator ([startVariations]) and the
    push listener (the [/webhooks/wavespeed] route).

    JavaScript strings are sequences of UTF-16 code units; they are modelled
    as [list N].  Every white space character of ECMAScript lies in the Basic
    Multilingual Plane, so [trim] is exact on code units.

    What the embedding takes from the environment:
    - the answers of the job service and of the image download are inputs of
      the functions that consume them;
    - Airtable answers every request for a row that exists, and refuses a
      request for a row that does not;
    - time is a clock in milliseconds that moves while the process sleeps
      and while it waits for a status answer;
    - an asynchronous function runs to its end before another one starts,
      except in [overlapped], which spells out one schedule of two
      reconciler calls that interleave at their reads;
    - console output is left out. *)

From Stdlib Require Import ZArith NArith List Ascii String Lia.
From Stdlib Require Import DecimalString.
From stdpp Require Import base option list gmap strings.

Set Default Proof Using "Type".
Open Scope Z_scope.

(** ** Strings *)

Abbreviation jsstring := (list N).

(** An ASCII literal as a JavaScript string. *)
Definition lit (s : string) : jsstring :=
  N_of_ascii <$> list_ascii_of_string s.

(** [`${i}`] for a loop index. *)
Definition decimal (n : nat) : jsstring :=
  lit (NilEmpty.string_of_uint (Nat.to_uint n)).

Module JS.

Definition comma : N := 44%N.
Definition space : N := 32%N.

(** WhiteSpace and LineTerminator of ECMAScript, the characters removed by
    [String.prototype.trim]. *)
Definition is_ws (c : N) : bool :=
  ((9 <=? c) && (c <=? 13) || (c =? 32) || (c =? 160) || (c =? 5760)
   || (8192 <=? c) && (c <=? 8202) || (c =? 8232) || (c =? 8233)
   || (c =? 8239) || (c =? 8287) || (c =? 12288) || (c =? 65279))%N.

(** [s.split(",")]: the empty string splits into one empty piece. *)
Fixpoint split (s : jsstring) : list jsstring :=
  match s with
  | [] => [[]]
  | c :: r =>
      if (c =? comma)%N then [] :: split r
      else match split r with
           | p :: ps => (c :: p) :: ps
           | [] => [[c]]
           end
  end.

Fixpoint trimStart (s : jsstring) : jsstring :=
  match s with
  | [] => []
  | c :: r => if is_ws c then trimStart r else s
  end.

Definition trimEnd (s : jsstring) : jsstring := rev (trimStart (rev s)).

(** [s.trim()] *)
Definition trim (s : jsstring) : jsstring := trimEnd (trimStart s).

(** [xs.join(sep)] *)
Fixpoint join (sep : jsstring) (xs : list jsstring) : jsstring :=
  match xs with
  | [] => []
  | x :: r => match r with
              | [] => x
              | _ :: _ => x ++ sep ++ join sep r
              end
  end.

(** [Boolean(s)] on a string: only the empty string is falsy. *)
Definition truthy (s : jsstring) : bool :=
  match s with [] => false | _ :: _ => true end.

(** [a || b] on values that may be [undefined]. *)
Definition or_else (a : option jsstring) (b : jsstring) : jsstring :=
  match a with
  | Some s => if truthy s then s else b
  | None => b
  end.

(** A JavaScript [Set] of strings iterates in insertion order: it is a
    duplicate-free list, and [add] of a present element changes nothing. *)
Definition has (x : jsstring) (s : list jsstring) : bool :=
  bool_decide (x ∈ s).

Definition add (s : list jsstring) (x : jsstring) : list jsstring :=
  if has x s then s else s ++ [x].

(** [new Set(xs)] *)
Definition mkSet (xs : list jsstring) : list jsstring := fold_left add xs [].

(** [xs.every(p)] *)
Definition every {A} (p : A -> bool) (xs : list A) : bool := forallb p xs.

(** [s.toLowerCase()], on the letters A to Z.  Outside ASCII the only code
    points that lower-case to an ASCII letter are the Kelvin sign (to [k])
    and the dotted capital I (to [i] followed by a combining dot); the status
    words tested below contain no [k] and no combining dot, so the tests come
    out the same as under the full Unicode mapping. *)
Definition lowerChar (c : N) : N :=
  if ((65 <=? c) && (c <=? 90))%N then (c + 32)%N else c.

Definition toLowerCase (s : jsstring) : jsstring := lowerChar <$> s.

(** [words.includes(s)] *)
Definition includes (words : list jsstring) (s : jsstring) : bool :=
  bool_decide (s ∈ words).

End JS.

(** ** The id-set encoding (server.mjs, lines 60-66) *)

(** [(str || "").split(",").map((s) => s.trim()).filter(Boolean)] *)
Definition idTokens (str : option jsstring) : list jsstring :=
  List.filter JS.truthy (JS.trim <$> JS.split (JS.or_else str [])).

Definition parseIds (str : option jsstring) : list jsstring :=
  JS.mkSet (idTokens str).

Definition mergeIds (existing : option jsstring) (newIds : list jsstring) : jsstring :=
  let set := JS.mkSet (idTokens existing) in
  let set := fold_left JS.add newIds set in
  JS.join (lit ", ") set.

(** The non-empty trimmed pieces of a string. *)
Definition tok (s : jsstring) : list jsstring :=
  List.filter JS.truthy (JS.trim <$> JS.split s).

(** A well-formed id: non-empty, free of commas, nothing to trim. *)
Definition is_token (x : jsstring) : Prop :=
  (x ≠ []) ∧ (JS.comma ∉ x) ∧ (JS.trim x = x).

#[global] Instance is_token_dec x : Decision (is_token x).
Proof. unfold is_token. apply _. Defined.

(** The ids a string contributes once it is written into an id field and
    read back. *)
Definition tokensOf (x : jsstring) : list jsstring := idTokens (Some x).

(** ** The batch record (an Airtable row of the "Image Variations" table)

    The table schema types the fields: text, number, attachment list and
    date-time.  A field that is absent from [rec.fields] reads as
    [undefined], here [None].  Time stamps are kept as milliseconds since
    the epoch instead of their ISO rendering. *)

Abbreviation RecordId := (list N).

Record Attachment := mkAttachment { url : jsstring; filename : jsstring }.

Record Fields := mkFields {
  Prompt : option jsstring;
  Subject : option (list Attachment);
  Size : option jsstring;
  BatchCount : option Z;
  Model : option jsstring;
  Status : option jsstring;
  RequestIDs : option jsstring;
  SeenIDs : option jsstring;
  FailedIDs : option jsstring;
  Output : option (list Attachment);
  LastUpdate : option Z;
  CompletedAt : option Z }.

(** A PATCH body has the same shape; a key that is missing (or whose value
    is [undefined], which [JSON.stringify] drops) is [None] and leaves the
    stored field alone. *)
Definition noFields : Fields :=
  mkFields None None None None None None None None None None None None.

Definition upd {A} (new old : option A) : option A :=
  match new with Some v => Some v | None => old end.

Definition applyPatch (p f : Fields) : Fields :=
  {| Prompt := upd (Prompt p) (Prompt f);
     Subject := upd (Subject p) (Subject f);
     Size := upd (Size p) (Size f);
     BatchCount := upd (BatchCount p) (BatchCount f);
     Model := upd (Model p) (Model f);
     Status := upd (Status p) (Status f);
     RequestIDs := upd (RequestIDs p) (RequestIDs f);
     SeenIDs := upd (SeenIDs p) (SeenIDs f);
     FailedIDs := upd (FailedIDs p) (FailedIDs f);
     Output := upd (Output p) (Output f);
     LastUpdate := upd (LastUpdate p) (LastUpdate f);
     CompletedAt := upd (CompletedAt p) (CompletedAt f) |}.

(** ** External services *)

(** What the job service answers to a submission: the request may fail in
    transport, come back with a non-2xx status, or carry a JSON body of
    which the code reads [data.id] and [id]. *)
Inductive SubmitResp :=
| SubmitNetworkError
| SubmitNotOk
| SubmitBody (data_id id : option jsstring).

(** What the job service answers to a status request: no answer, a non-2xx
    status, a body that is not JSON, or a JSON body of which the code reads
    [status], [output] and [outputs]. *)
Inductive FetchBody :=
| FetchNetworkError
| FetchNotOk
| FetchBadJson
| FetchJson (status : option jsstring) (output outputs : option (list jsstring)).

(** A status request takes [latency] milliseconds to resolve. *)
Record FetchResp := mkFetch { latency : N; body : FetchBody }.

Inductive Error :=
| AirtableGetFailed
| AirtablePatchFailed
| ImageFetchFailed
| SubmitFailed
| NoRequestID
| GetResultFailed
| MissingPromptOrSubject.

(** ** The process state

    [store] is the Airtable table, [requestMap] the in-memory job registry,
    [clock] is [Date.now()].  [trace] is instrumentation: it records the
    calls whose number the properties below talk about. *)

Inductive Event :=
| EvSubmit (recordId : RecordId) (resp : SubmitResp)
| EvFetch (requestId : jsstring) (resp : FetchResp)
| EvReconcile (recordId : RecordId) (requestId : jsstring)
              (outputs : list jsstring) (failed : bool)
| EvPoller (requestId : jsstring) (recordId : RecordId).

Record World := mkWorld {
  store : gmap (list N) Fields;
  requestMap : gmap (list N) (list N);
  clock : Z;
  trace : list Event }.

Definition setStore (s : gmap (list N) Fields) (w : World) : World :=
  mkWorld s (requestMap w) (clock w) (trace w).
Definition setRequestMap (m : gmap (list N) (list N)) (w : World) : World :=
  mkWorld (store w) m (clock w) (trace w).
Definition setClock (t : Z) (w : World) : World :=
  mkWorld (store w) (requestMap w) t (trace w).
Definition addEvent (e : Event) (w : World) : World :=
  mkWorld (store w) (requestMap w) (clock w) (trace w ++ [e]).

(** ** Computations: state threading with exceptions

    A rejected promise is [Throw]; effects performed before the throw stay. *)

Inductive Res (A : Type) :=
| Ok (a : A)
| Throw (e : Error).
Arguments Ok {A} a.
Arguments Throw {A} e.

Definition M (A : Type) : Type := World -> Res A * World.

Definition ret {A} (a : A) : M A := fun w => (Ok a, w).
Definition throw {A} (e : Error) : M A := fun w => (Throw e, w).
Definition bind {A B} (m : M A) (k : A -> M B) : M B :=
  fun w => match m w with
           | (Ok a, w') => k a w'
           | (Throw e, w') => (Throw e, w')
           end.
Definition try_catch {A} (m : M A) (handler : Error -> M A) : M A :=
  fun w => match m w with
           | (Ok a, w') => (Ok a, w')
           | (Throw e, w') => handler e w'
           end.
Definition emit (e : Event) : M unit := fun w => (Ok tt, addEvent e w).

Notation "'let!' x ':=' m 'in' k" := (bind m (fun x => k))
  (at level 10, x name, m at level 100, k at level 200).
Notation "'run!' m 'in' k" := (bind m (fun _ => k))
  (at level 10, m at level 100, k at level 200).

(** [sleep(ms)] *)
Definition sleep (ms : Z) : M unit := fun w => (Ok tt, setClock (clock w + ms) w).
(** [Date.now()] and [nowISO()] *)
Definition DateNow : M Z := fun w => (Ok (clock w), w).
Definition nowISO : M Z := DateNow.

(** ** Airtable (server.mjs, lines 44-58)

    A GET or PATCH of a row that does not exist is answered with a non-2xx
    status and throws; requests for an existing row succeed.  A request for
    an existing row that Airtable refuses (rate limit, outage) is not part
    of the embedding: what is proved about the effect of a call is about a
    call that runs to its end. *)

Definition atGet (id : RecordId) : M Fields :=
  fun w => match store w !! id with
           | Some f => (Ok f, w)
           | None => (Throw AirtableGetFailed, w)
           end.

Definition atPatch (id : RecordId) (fields : Fields) : M Fields :=
  fun w => match store w !! id with
           | Some f =>
               let f' := applyPatch fields f in
               (Ok f', setStore (<[id := f']> (store w)) w)
           | None => (Throw AirtablePatchFailed, w)
           end.

(** ** markCompleted (server.mjs, lines 68-76) *)

Definition allSeen (req seen : list jsstring) : bool :=
  (0 <? length req)%nat && JS.every (fun id => JS.has id seen) req.

Definition markCompleted (recordId : RecordId) : M unit :=
  let! rec := atGet recordId in
  let req := parseIds (RequestIDs rec) in
  let seen := parseIds (SeenIDs rec) in
  if allSeen req seen then
    let! t := nowISO in
    run! atPatch recordId
           (mkFields None None None None None (Some (lit "completed"))
                     None None None None None (Some t)) in
    ret tt
  else ret tt.

(** ** urlToDataURL (server.mjs, lines 32-38)

    [download] is the data URL built from the answer to the image request,
    [None] when the request fails. *)
Definition urlToDataURL (download : option jsstring) : M jsstring :=
  match download with
  | Some dataUrl => ret dataUrl
  | None => throw ImageFetchFailed
  end.

(** ** The job service (server.mjs, lines 79-120) *)

(** [a || b] where both may be [undefined] *)
Definition or_opt (a b : option jsstring) : option jsstring :=
  match a with
  | Some s => if JS.truthy s then Some s else b
  | None => b
  end.

(** [submitVariation]: [resp] is the answer of the service to this call.
    The request body (prompt, image, size) goes out to the service and has
    no further use here. *)
Definition submitVariation (resp : SubmitResp) (recordId : RecordId) : M jsstring :=
  run! emit (EvSubmit recordId resp) in
  match resp with
  | SubmitNetworkError => throw SubmitFailed
  | SubmitNotOk => throw SubmitFailed
  | SubmitBody data_id id =>
      let requestId := JS.or_else (or_opt data_id id) [] in
      if negb (JS.truthy requestId) then throw NoRequestID
      else
        run! (fun w => (Ok tt, setRequestMap (<[requestId := recordId]> (requestMap w)) w)) in
        ret requestId
  end.

(** [getResult]: [resp] is the answer of the service to this call. *)
Definition getResult (requestId : jsstring) (resp : FetchResp)
  : M (jsstring * list jsstring) :=
  run! emit (EvFetch requestId resp) in
  run! sleep (Z.of_N (latency resp)) in
  match body resp with
  | FetchNetworkError => throw GetResultFailed
  | FetchNotOk => throw GetResultFailed
  | FetchBadJson => throw GetResultFailed
  | FetchJson status output outputs =>
      let status := JS.toLowerCase (JS.or_else status (lit "processing")) in
      let outputs := match output with
                     | Some o => o
                     | None => match outputs with Some o => o | None => [] end
                     end in
      ret (status, outputs)
  end.

(** ** appendOutputs (server.mjs, lines 122-136)

    A call runs from its read to its last write without another call in
    between: calls are taken one at a time. *)

Definition outputEntry (requestId : jsstring) (i : nat) (u : jsstring) : Attachment :=
  {| url := u;
     filename := lit "var_" ++ requestId ++ lit "_" ++ decimal i ++ lit ".png" |}.

Definition appendOutputs (recordId : RecordId)
    (outputs : list jsstring) (requestId : jsstring) (failed : bool) : M unit :=
  run! emit (EvReconcile recordId requestId outputs failed) in
  let! rec := atGet recordId in
  let prev := match Output rec with Some o => o | None => [] end in
  let newOutputs := prev ++ imap (outputEntry requestId) outputs in
  let! t := nowISO in
  run! atPatch recordId
         {| Prompt := None; Subject := None; Size := None; BatchCount := None;
            Model := None; Status := None; RequestIDs := None;
            SeenIDs := Some (mergeIds (SeenIDs rec) [requestId]);
            FailedIDs := if failed then Some (mergeIds (FailedIDs rec) [requestId])
                         else FailedIDs rec;
            Output := Some newOutputs;
            LastUpdate := Some t;
            CompletedAt := None |} in
  markCompleted recordId.

(** ** pollUntilDone (server.mjs, lines 139-163) *)

Definition successWords : list jsstring := [lit "completed"; lit "succeeded"].
Definition failureWords : list jsstring := [lit "failed"; lit "error"].

(** One turn of the loop body, the [try] with its [catch]; [true] stands
    for the [return]. *)
Definition pollBody (requestId : jsstring) (recordId : RecordId)
    (resp : FetchResp) : M bool :=
  try_catch
    (let! r := getResult requestId resp in
     let '(status, outputs) := r in
     if JS.includes successWords status then
       run! appendOutputs recordId outputs requestId false in ret true
     else if JS.includes failureWords status then
       run! appendOutputs recordId [] requestId true in ret true
     else
       run! sleep 7000 in ret false)
    (fun _ =>
       run! appendOutputs recordId [] requestId true in ret true).

(** The [while (Date.now() < timeout)] loop.  [fetches k] is the answer to
    the [k]-th status request of this poller; [fuel] bounds the number of
    turns, [None] meaning that the bound was too small. *)
Fixpoint pollLoop (fuel : nat) (timeout : Z) (requestId : jsstring)
    (recordId : RecordId) (fetches : nat -> FetchResp) (k : nat) (w : World)
  : option (Res unit * World) :=
  match fuel with
  | O => None
  | S fuel' =>
      if clock w <? timeout then
        match pollBody requestId recordId (fetches k) w with
        | (Ok true, w') => Some (Ok tt, w')
        | (Ok false, w') => pollLoop fuel' timeout requestId recordId fetches (S k) w'
        | (Throw e, w') => Some (Throw e, w')
        end
      else Some (appendOutputs recordId [] requestId true w)
  end.

Definition pollUntilDone (fuel : nat) (requestId : jsstring) (recordId : RecordId)
    (fetches : nat -> FetchResp) (w : World) : option (Res unit * World) :=
  let timeout := clock w + 20 * 60 * 1000 in
  pollLoop fuel timeout requestId recordId fetches 0 w.

(** Turns that always suffice: the clock advances by at least 7000 per turn. *)
Definition pollFuel : nat := 173.

(** ** startVariations (server.mjs, lines 166-211) *)

(** [Math.max(1, Math.min(10, Number(f["Batch Count"]) || 4))] on an
    integer-valued number field: [NaN] (absent field) and [0] are falsy. *)
Definition batchCountOf (bc : option Z) : Z :=
  let n := match bc with
           | Some n => if n =? 0 then 4 else n
           | None => 4
           end in
  Z.max 1 (Z.min 10 n).

(** [f["Subject"]?.[0]?.url] *)
Definition subjectUrlOf (subject : option (list Attachment)) : option jsstring :=
  match subject with
  | Some (a :: _) => Some (url a)
  | _ => None
  end.

Record StartResult := mkStart {
  sr_recordId : RecordId;
  submitted : nat;
  requestIds : list jsstring }.

(** The [for] loop of the fan-out: [n] turns remain, [i] is the loop index,
    [submits i] the answer of the service to the [i]-th submission. *)
Fixpoint submitLoop (n : nat) (i : nat) (batchCount : Z) (recordId : RecordId)
    (submits : nat -> SubmitResp) (requestIds : list jsstring) : M (list jsstring) :=
  match n with
  | O => ret requestIds
  | S n' =>
      let! requestIds :=
        try_catch
          (let! rid := submitVariation (submits i) recordId in
           run! (if Z.of_nat i <? batchCount - 1 then sleep 1200 else ret tt) in
           ret (requestIds ++ [rid]))
          (fun _ => ret requestIds) in
      submitLoop n' (S i) batchCount recordId submits requestIds
  end.

Section Coordinator.

(** The text written back to the Size field, [`${width}x${height}`] with
    the dimensions extracted from the field by the regular expression and
    converted by [Number] (defaults 1024 and 1344): a function of the
    field, floating point in general, and of no influence on the rest. *)
Variable renderSize : option jsstring -> jsstring.

(** [image] is what the download of the subject yields, [None] when it
    fails. *)
Definition startVariations (recordId : RecordId) (image : option jsstring)
    (submits : nat -> SubmitResp) : M StartResult :=
  let! rec := atGet recordId in
  let prompt := JS.or_else (Prompt rec) [] in
  let subjectUrl := JS.or_else (subjectUrlOf (Subject rec)) [] in
  if negb (JS.truthy prompt) || negb (JS.truthy subjectUrl)
  then throw MissingPromptOrSubject
  else
    let batchCount := batchCountOf (BatchCount rec) in
    let! imageDataUrl := urlToDataURL image in
    let! t := nowISO in
    run! atPatch recordId
           {| Prompt := None; Subject := None;
              Size := Some (renderSize (Size rec));
              BatchCount := None;
              Model := Some (lit "Seedream v4 (edit-sequential)");
              Status := Some (lit "processing");
              RequestIDs := Some []; SeenIDs := Some []; FailedIDs := Some [];
              Output := None; LastUpdate := Some t; CompletedAt := None |} in
    let! requestIds :=
      submitLoop (Z.to_nat batchCount) 0 batchCount recordId submits [] in
    run! atPatch recordId
           {| Prompt := None; Subject := None; Size := None; BatchCount := None;
              Model := None; Status := None;
              RequestIDs := Some (JS.join (lit ", ") requestIds);
              SeenIDs := None; FailedIDs := None; Output := None;
              LastUpdate := None; CompletedAt := None |} in
    run! (fun w => (Ok tt, mkWorld (store w) (requestMap w) (clock w)
                             (trace w ++ ((fun rid => EvPoller rid recordId) <$> requestIds)))) in
    ret {| sr_recordId := recordId;
           submitted := length requestIds;
           requestIds := requestIds |}.

End Coordinator.

(** ** The push listener (server.mjs, lines 230-250) *)

Record WebhookBody := mkWebhook {
  wb_request_id : option jsstring;
  wb_id : option jsstring;
  wb_status : option jsstring;
  wb_output : option (list jsstring) }.

(** The HTTP status and the [ok] member of the JSON answer, if any. *)
Record HttpAnswer := mkAnswer { code : Z; ok : option bool }.

Definition webhook (b : WebhookBody) (w : World) : HttpAnswer * World :=
  let requestId := or_opt (wb_request_id b) (wb_id b) in
  let status := JS.toLowerCase (JS.or_else (wb_status b) []) in
  let outputs := match wb_output b with Some o => o | None => [] end in
  let recordId := match requestId with
                  | Some k => requestMap w !! k
                  | None => None
                  end in
  match recordId, requestId with
  | Some recordId, Some requestId =>
      if negb (JS.truthy recordId) then (mkAnswer 202 (Some false), w)
      else
        let m : M unit :=
          if JS.includes successWords status then
            appendOutputs recordId outputs requestId false
          else if JS.includes failureWords status then
            appendOutputs recordId [] requestId true
          else ret tt in
        match m w with
        | (Ok _, w') => (mkAnswer 200 (Some true), w')
        | (Throw _, w') => (mkAnswer 500 None, w')
        end
  | _, _ => (mkAnswer 202 (Some false), w)
  end.

(** ** Reading a batch record *)

Definition jobIds (f : Fields) : list jsstring := parseIds (RequestIDs f).
Definition seenIds (f : Fields) : list jsstring := parseIds (SeenIDs f).
Definition failedIds (f : Fields) : list jsstring := parseIds (FailedIDs f).
Definition outputList (f : Fields) : list Attachment :=
  match Output f with Some o => o | None => [] end.
Definition isCompleted (f : Fields) : Prop := Status f = Some (lit "completed").

(** The completion test of [markCompleted], as a proposition. *)
Definition allAccounted (f : Fields) : Prop :=
  jobIds f ≠ [] ∧ jobIds f ⊆ seenIds f.

(** The record left by one reconciler call at time [t]: the PATCH of
    [appendOutputs] and then the conditional PATCH of [markCompleted]. *)
Definition appended (t : Z) (outputs : list jsstring) (requestId : jsstring)
    (failed : bool) (f : Fields) : Fields :=
  applyPatch
    {| Prompt := None; Subject := None; Size := None; BatchCount := None;
       Model := None; Status := None; RequestIDs := None;
       SeenIDs := Some (mergeIds (SeenIDs f) [requestId]);
       FailedIDs := if failed then Some (mergeIds (FailedIDs f) [requestId])
                    else FailedIDs f;
       Output := Some (outputList f ++ imap (outputEntry requestId) outputs);
       LastUpdate := Some t;
       CompletedAt := None |} f.

Definition reconciled (t : Z) (outputs : list jsstring) (requestId : jsstring)
    (failed : bool) (f : Fields) : Fields :=
  let f1 := appended t outputs requestId failed f in
  if allSeen (jobIds f1) (seenIds f1) then
    applyPatch (mkFields None None None None None (Some (lit "completed"))
                         None None None None None (Some t)) f1
  else f1.

(** The status tells whether every job is accounted for. *)
Definition completionInv (f : Fields) : Prop := isCompleted f <-> allAccounted f.

(** A reconciler call as either channel issues it, [delay] milliseconds
    after the previous one. *)
Record Invocation := mkInvocation {
  inv_delay : N;
  inv_job : jsstring;
  inv_outputs : list jsstring;
  inv_failed : bool }.

Definition invoke (recordId : RecordId) (w : World) (i : Invocation) : World :=
  snd (appendOutputs recordId (inv_outputs i) (inv_job i) (inv_failed i)
         (setClock (clock w + Z.of_N (inv_delay i)) w)).

Definition invokeAll (recordId : RecordId) (invs : list Invocation) (w : World) : World :=
  fold_left (invoke recordId) invs w.

(** The batch record of [recordId], a blank one if the row is missing. *)
Definition batch (recordId : RecordId) (w : World) : Fields :=
  match store w !! recordId with Some f => f | None => noFields end.

(** Events of a kind in a trace. *)
Definition reconcilesOf (tr : list Event)
  : list (RecordId * jsstring * list jsstring * bool) :=
  omap (fun e => match e with
                 | EvReconcile r j o f => Some (r, j, o, f)
                 | _ => None
                 end) tr.

Definition fetchesOf (tr : list Event) : list FetchResp :=
  omap (fun e => match e with EvFetch _ r => Some r | _ => None end) tr.

Definition submitsOf (tr : list Event) : list SubmitResp :=
  omap (fun e => match e with EvSubmit _ r => Some r | _ => None end) tr.

(** The id a submission answer yields, if it succeeds. *)
Definition submittedId (resp : SubmitResp) : option jsstring :=
  match resp with
  | SubmitBody data_id id =>
      let requestId := JS.or_else (or_opt data_id id) [] in
      if JS.truthy requestId then Some requestId else None
  | _ => None
  end.

(** ** Reading a status answer *)

(** What [getResult] returns for an answer, [None] when it throws. *)
Definition observed (resp : FetchResp) : option (jsstring * list jsstring) :=
  match body resp with
  | FetchJson status output outputs =>
      Some (JS.toLowerCase (JS.or_else status (lit "processing")),
            match output with
            | Some o => o
            | None => match outputs with Some o => o | None => [] end
            end)
  | _ => None
  end.

(** A transport or parse error. *)
Definition errored (resp : FetchResp) : bool :=
  match observed resp with None => true | Some _ => false end.

(** An answer whose status is not terminal. *)
Definition pending (resp : FetchResp) : bool :=
  match observed resp with
  | Some (status, _) =>
      negb (JS.includes successWords status) && negb (JS.includes failureWords status)
  | None => false
  end.

(** The Output entries one reconciler call appends. *)
Definition entriesOf (i : Invocation) : list Attachment :=
  imap (outputEntry (inv_job i)) (inv_outputs i).

(** The registry after the ids [ids] have been registered for [recordId],
    in order: [requestMap.set(id, recordId)] for each. *)
Definition registerAll (recordId : RecordId) (ids : list jsstring)
    (m : gmap (list N) (list N)) : gmap (list N) (list N) :=
  fold_left (fun m id => <[id := recordId]> m) ids m.

(** The two PATCH bodies of [startVariations]. *)
Definition resetPatch (size : jsstring) (t : Z) : Fields :=
  {| Prompt := None; Subject := None;
     Size := Some size;
     BatchCount := None;
     Model := Some (lit "Seedream v4 (edit-sequential)");
     Status := Some (lit "processing");
     RequestIDs := Some []; SeenIDs := Some []; FailedIDs := Some [];
     Output := None; LastUpdate := Some t; CompletedAt := None |}.

Definition requestIdsPatch (ids : list jsstring) : Fields :=
  {| Prompt := None; Subject := None; Size := None; BatchCount := None;
     Model := None; Status := None;
     RequestIDs := Some (JS.join (lit ", ") ids);
     SeenIDs := None; FailedIDs := None; Output := None;
     LastUpdate := None; CompletedAt := None |}.

(** The reconciler call a poller makes for a status answer: a success with
    the outputs of the answer for a success status, a failure without outputs
    for anything else that ends the poll. *)
Definition outcomeOf (resp : FetchResp) : list jsstring * bool :=
  match observed resp with
  | Some (status, outputs) =>
      if JS.includes successWords status then (outputs, false) else ([], true)
  | None => ([], true)
  end.

(** ** Two reconciler calls that overlap

    [appendOutputs] awaits its read before it builds its PATCH.
    [appendOutputsWrite rec] is the call from the moment the read has
    answered [rec]; [overlapped] is the schedule of two calls on one record
    in which both reads are answered before either call goes on. *)

Definition appendPatch (t : Z) (outputs : list jsstring) (requestId : jsstring)
    (failed : bool) (rec : Fields) : Fields :=
  {| Prompt := None; Subject := None; Size := None; BatchCount := None;
     Model := None; Status := None; RequestIDs := None;
     SeenIDs := Some (mergeIds (SeenIDs rec) [requestId]);
     FailedIDs := if failed then Some (mergeIds (FailedIDs rec) [requestId])
                  else FailedIDs rec;
     Output := Some (outputList rec ++ imap (outputEntry requestId) outputs);
     LastUpdate := Some t;
     CompletedAt := None |}.

Definition appendOutputsWrite (rec : Fields) (recordId : RecordId)
    (outputs : list jsstring) (requestId : jsstring) (failed : bool) : M unit :=
  let! t := nowISO in
  run! atPatch recordId (appendPatch t outputs requestId failed rec) in
  markCompleted recordId.

Definition overlapped (recordId : RecordId)
    (outputs1 : list jsstring) (requestId1 : jsstring) (failed1 : bool)
    (outputs2 : list jsstring) (requestId2 : jsstring) (failed2 : bool) : M unit :=
  run! emit (EvReconcile recordId requestId1 outputs1 failed1) in
  let! rec1 := atGet recordId in
  run! emit (EvReconcile recordId requestId2 outputs2 failed2) in
  let! rec2 := atGet recordId in
  run! appendOutputsWrite rec1 recordId outputs1 requestId1 failed1 in
  appendOutputsWrite rec2 recordId outputs2 requestId2 failed2.

(** The conditional PATCH of [markCompleted], on the record it reads. *)
Definition completedIfAllSeen (t : Z) (f : Fields) : Fields :=
  if allSeen (jobIds f) (seenIds f) then
    applyPatch (mkFields None None None None None (Some (lit "completed"))
                         None None None None None (Some t)) f
  else f.

(** The error [startVariations] throws before its first write, if any:
    the read of the record fails, the prompt or the subject url is missing
    or empty, or the image cannot be downloaded. *)
Definition earlyFailure (rec : option Fields) (image : option jsstring) : option Error :=
  match rec with
  | None => Some AirtableGetFailed
  | Some f =>
      if negb (JS.truthy (JS.or_else (Prompt f) []))
         || negb (JS.truthy (JS.or_else (subjectUrlOf (Subject f)) []))
      then Some MissingPromptOrSubject
      else match image with
           | None => Some ImageFetchFailed
           | Some _ => None
           end
  end.

(** The clock at the head of the [i]-th further turn of a poll that is at a
    loop head at time [start] with answer number [k] next, as long as the
    answers in between are not terminal: a turn takes the time its status
    request needs and the 7000 ms of its sleep. *)
Fixpoint requestTime (fetches : nat -> FetchResp) (k : nat) (start : Z) (i : nat) : Z :=
  match i with
  | O => start
  | S i' => requestTime fetches (S k) (start + Z.of_N (latency (fetches k)) + 7000) i'
  end.

(** ** Sample data *)

Definition recA : RecordId := lit "recA".

Definition sampleSubject : list Attachment :=
  [ {| url := lit "https://example.com/cat.png"; filename := lit "cat.png" |} ].

(** A batch with the given status, id fields and completion stamp. *)
Definition sampleBatch (status req seen failed : string) (count : option Z)
    (completedAt : option Z) : Fields :=
  {| Prompt := Some (lit "a cat");
     Subject := Some sampleSubject;
     Size := Some (lit "512x512");
     BatchCount := count;
     Model := None;
     Status := Some (lit status);
     RequestIDs := Some (lit req);
     SeenIDs := Some (lit seen);
     FailedIDs := Some (lit failed);
     Output := None;
     LastUpdate := None;
     CompletedAt := completedAt |}.

(** A world holding one batch under [recA], at clock [t]. *)
Definition sampleWorld (f : Fields) (t : Z) : World :=
  mkWorld {[ recA := f ]} ∅ t [].

(** A job service that accepts every submission, and one that rejects
    every second one. *)
Definition acceptAll (i : nat) : SubmitResp :=
  SubmitBody (Some (lit "job" ++ decimal i)) None.

Definition rejectOdd (i : nat) : SubmitResp :=
  if Nat.odd i then SubmitNotOk else SubmitBody None (Some (lit "job" ++ decimal i)).

Definition sampleImage : jsstring := lit "data:image/png;base64,AAAA".

Definition sampleSize (_ : option jsstring) : jsstring := lit "512x512".

(** A job service that answers [processing] twice and then fails to answer,
    and one that answers [processing] for ever, each after 500 ms. *)
Definition stillProcessing : FetchResp :=
  mkFetch 500 (FetchJson (Some (lit "Processing")) None None).

Definition failsThird (k : nat) : FetchResp :=
  if (k <? 2)%nat then stillProcessing else mkFetch 500 FetchNetworkError.

Definition neverDone (_ : nat) : FetchResp := stillProcessing.

(** A job service that answers at once, [processing] 171 times, and then
    takes five seconds to answer [completed] with one output. *)
Definition answersLate (k : nat) : FetchResp :=
  if (k <? 171)%nat then mkFetch 0 (FetchJson (Some (lit "processing")) None None)
  else mkFetch 5000 (FetchJson (Some (lit "completed")) None (Some [lit "u1"])).

(** A job service that answers [succeeded] with two outputs at the third
    status request. *)
Definition succeedsThird (k : nat) : FetchResp :=
  if (k <? 2)%nat then stillProcessing
  else mkFetch 500 (FetchJson (Some (lit "Succeeded")) (Some [lit "u1"; lit "u2"]) None).

(** * Properties *)

(** ** The definitions at work *)

Module Examples.

Example split_of_empty : JS.split [] = [[]].
Proof. reflexivity. Qed.

Example split_keeps_empty_pieces :
  JS.split (lit "a,,b,") = [lit "a"; []; lit "b"; []].
Proof. reflexivity. Qed.

Example trim_both_ends : JS.trim (lit "  a b ") = lit "a b".
Proof. reflexivity. Qed.

Example parseIds_trims_and_dedups :
  parseIds (Some (lit " a , b,,a ,")) = [lit "a"; lit "b"].
Proof. reflexivity. Qed.

Example parseIds_of_undefined : parseIds None = [].
Proof. reflexivity. Qed.

Example mergeIds_appends_new_ids :
  mergeIds (Some (lit "a,b")) [lit "c"; lit "a"] = lit "a, b, c".
Proof. reflexivity. Qed.

Example mergeIds_on_undefined : mergeIds None [lit "x"] = lit "x".
Proof. reflexivity. Qed.

Example tokensOf_an_id_with_a_comma : tokensOf (lit "a, b") = [lit "a"; lit "b"].
Proof. reflexivity. Qed.

Example outputEntry_filename :
  filename (outputEntry (lit "abc") 12 (lit "https://x/y.png")) = lit "var_abc_12.png".
Proof. reflexivity. Qed.

Example batchCountOf_values :
  batchCountOf <$> [None; Some (-3); Some 0; Some 1; Some 7; Some 10; Some 15]
  = [4; 1; 4; 1; 7; 10; 10].
Proof. reflexivity. Qed.

Example status_is_lowercased :
  observed (mkFetch 0 (FetchJson (Some (lit "COMPLETED")) None (Some [lit "u"])))
  = Some (lit "completed", [lit "u"]).
Proof. reflexivity. Qed.

Example status_defaults_to_processing :
  observed (mkFetch 0 (FetchJson None None None)) = Some (lit "processing", []).
Proof. reflexivity. Qed.

End Examples.

(** ** Splitting, trimming and joining *)

Module JSFacts.
Import JS.

Lemma split_nonempty s : split s ≠ [].
Proof. destruct s as [|c r]; simpl; [done|]. destruct (c =? comma)%N; [done|]. by destruct (split r). Qed.

Lemma split_app_comma a b : split (a ++ comma :: b) = split a ++ split b.
Proof.
  induction a as [|c a IH]; simpl.
  - done.
  - destruct (c =? comma)%N; [by rewrite IH|].
    rewrite IH. destruct (split a) as [|p ps] eqn:E; [by apply split_nonempty in E|]. done.
Qed.

Lemma split_no_comma x : comma ∉ x -> split x = [x].
Proof.
  induction x as [|c x IH]; simpl; intros H; [done|].
  apply not_elem_of_cons in H as [H1 H2].
  destruct (N.eqb_spec c comma); [congruence|].
  by rewrite IH.
Qed.

Lemma split_pieces s p : p ∈ split s -> comma ∉ p.
Proof.
  revert p. induction s as [|c s IH]; simpl; intros p H.
  - apply list_elem_of_singleton in H as ->. apply not_elem_of_nil.
  - destruct (N.eqb_spec c comma).
    + apply elem_of_cons in H as [->|H]; [apply not_elem_of_nil|by apply IH].
    + destruct (split s) as [|q qs] eqn:E; [by apply split_nonempty in E|].
      apply elem_of_cons in H as [->|H].
      * apply not_elem_of_cons; split; [done|]. apply IH. by left.
      * apply IH. by right.
Qed.

Lemma trimStart_sub c s : c ∈ trimStart s -> c ∈ s.
Proof.
  induction s as [|d s IH]; simpl; [done|].
  destruct (is_ws d); [|done]. intros H. right. by apply IH.
Qed.

Lemma trim_sub c s : c ∈ trim s -> c ∈ s.
Proof.
  unfold trim, trimEnd. intros H.
  apply trimStart_sub. apply list_elem_of_In, in_rev, list_elem_of_In.
  apply trimStart_sub. by apply list_elem_of_In, in_rev, list_elem_of_In.
Qed.

Lemma trimStart_idem s : trimStart (trimStart s) = trimStart s.
Proof.
  induction s as [|c s IH]; simpl; [done|].
  destruct (is_ws c) eqn:E; [done|]. simpl. by rewrite E.
Qed.

Lemma trimStart_head s :
  trimStart s = [] ∨ ∃ c r, trimStart s = c :: r ∧ is_ws c = false.
Proof.
  induction s as [|c s IH]; simpl; [by left|].
  destruct (is_ws c) eqn:E; [done|]. right. by exists c, s.
Qed.

Lemma trimStart_snoc l c : is_ws c = false -> trimStart (l ++ [c]) = trimStart l ++ [c].
Proof.
  intros Hc. induction l as [|d l IH]; simpl; [by rewrite Hc|].
  destruct (is_ws d); done.
Qed.

Lemma trimEnd_cons c r : is_ws c = false -> trimEnd (c :: r) = c :: trimEnd r.
Proof.
  intros Hc. unfold trimEnd. simpl. rewrite trimStart_snoc by done.
  by rewrite rev_app_distr.
Qed.

Lemma trimEnd_idem s : trimEnd (trimEnd s) = trimEnd s.
Proof. unfold trimEnd. by rewrite rev_involutive, trimStart_idem. Qed.

Lemma trim_idem s : trim (trim s) = trim s.
Proof.
  unfold trim. destruct (trimStart_head s) as [->|(c & r & -> & Hc)]; [done|].
  rewrite trimEnd_cons by done. simpl. rewrite Hc.
  rewrite <- trimEnd_cons by done. apply trimEnd_idem.
Qed.

Lemma trim_ws c s : is_ws c = true -> trim (c :: s) = trim s.
Proof. intros H. unfold trim. simpl. by rewrite H. Qed.

Lemma split_cons_ws c s :
  c ≠ comma -> trim <$> split (c :: s) =
    match split s with p :: ps => trim (c :: p) :: (trim <$> ps) | [] => [] end.
Proof.
  intros Hc. simpl. destruct (N.eqb_spec c comma); [done|].
  destruct (split s) as [|p ps] eqn:E; [by apply split_nonempty in E|]. done.
Qed.

End JSFacts.

(** ** Insertion-ordered sets *)

Module SetFacts.
Import JS.

Lemma has_true x s : has x s = true <-> x ∈ s.
Proof. unfold has. apply bool_decide_eq_true. Qed.

Lemma has_false x s : has x s = false <-> x ∉ s.
Proof. unfold has. apply bool_decide_eq_false. Qed.

Lemma add_present x s : x ∈ s -> add s x = s.
Proof. intros H. unfold add. apply has_true in H. by rewrite H. Qed.

Lemma add_fresh x s : x ∉ s -> add s x = s ++ [x].
Proof. intros H. unfold add. apply has_false in H. by rewrite H. Qed.

Lemma elem_of_add y x s : y ∈ add s x <-> y ∈ s ∨ y = x.
Proof.
  destruct (decide (x ∈ s)) as [H|H].
  - rewrite add_present by done. split; [by left|]. intros [?| ->]; done.
  - rewrite add_fresh by done. rewrite elem_of_app, list_elem_of_singleton. done.
Qed.

Lemma NoDup_add x s : NoDup s -> NoDup (add s x).
Proof.
  intros Hs. destruct (decide (x ∈ s)) as [H|H].
  - by rewrite add_present.
  - rewrite add_fresh by done. apply NoDup_app. split_and!; [done| |apply NoDup_singleton].
    intros y Hy Hx. apply list_elem_of_singleton in Hx as ->. done.
Qed.

Lemma elem_of_fold_add y l s : y ∈ fold_left add l s <-> y ∈ s ∨ y ∈ l.
Proof.
  revert s. induction l as [|x l IH]; intros s; simpl.
  - split; [by left|]. intros [?|H]; [done|]. by apply elem_of_nil in H.
  - rewrite IH, elem_of_add, elem_of_cons. tauto.
Qed.

Lemma NoDup_fold_add l s : NoDup s -> NoDup (fold_left add l s).
Proof.
  revert s. induction l as [|x l IH]; intros s Hs; simpl; [done|].
  apply IH. by apply NoDup_add.
Qed.

Lemma fold_add_present l s : l ⊆ s -> fold_left add l s = s.
Proof.
  revert s. induction l as [|x l IH]; intros s H; simpl; [done|].
  rewrite add_present by (apply H; by left).
  apply IH. intros y Hy. apply H. by right.
Qed.

Lemma fold_add_fresh l s : NoDup (s ++ l) -> fold_left add l s = s ++ l.
Proof.
  revert s. induction l as [|x l IH]; intros s H; simpl.
  - by rewrite app_nil_r.
  - assert (E : s ++ x :: l = (s ++ [x]) ++ l) by by rewrite <- app_assoc.
    rewrite E in H. rewrite add_fresh.
    + rewrite IH by done. done.
    + apply NoDup_app in H as (H & _ & _). apply NoDup_app in H as (_ & H & _).
      intros Hx. apply (H x Hx). by left.
Qed.

Lemma elem_of_mkSet y l : y ∈ mkSet l <-> y ∈ l.
Proof.
  unfold mkSet. rewrite elem_of_fold_add. split; [|by right].
  intros [H|H]; [by apply elem_of_nil in H|done].
Qed.

Lemma NoDup_mkSet l : NoDup (mkSet l).
Proof. apply NoDup_fold_add, NoDup_nil_2. Qed.

Lemma mkSet_NoDup l : NoDup l -> mkSet l = l.
Proof. intros H. unfold mkSet. by rewrite fold_add_fresh. Qed.

Lemma mkSet_app a b : mkSet (a ++ b) = fold_left add b (mkSet a).
Proof. unfold mkSet. apply fold_left_app. Qed.

(** Adding to a set what it already holds, in any multiplicity. *)
Lemma mkSet_app_present a b : b ⊆ a -> mkSet (a ++ b) = mkSet a.
Proof.
  intros H. rewrite mkSet_app. apply fold_add_present.
  intros y Hy. apply elem_of_mkSet. by apply H.
Qed.

Lemma allSeen_spec req seen :
  allSeen req seen = true <-> req ≠ [] ∧ req ⊆ seen.
Proof.
  unfold allSeen, every. rewrite andb_true_iff, forallb_forall.
  split.
  - intros [H1 H2]. split.
    + destruct req; [done|done].
    + intros x Hx. apply has_true, H2. by apply list_elem_of_In.
  - intros [H1 H2]. split.
    + destruct req; [done|]. done.
    + intros x Hx. apply has_true, H2. by apply list_elem_of_In.
Qed.

End SetFacts.

(** ** The id-set encoding *)

Module IdFacts.
Import JS JSFacts SetFacts.

Lemma or_else_Some s : or_else (Some s) [] = s.
Proof. by destruct s. Qed.

Lemma idTokens_Some s : idTokens (Some s) = tok s.
Proof. unfold idTokens. by rewrite or_else_Some. Qed.

Lemma idTokens_tok str : idTokens str = tok (or_else str []).
Proof. done. Qed.

Lemma tok_nil : tok [] = [].
Proof. done. Qed.

Lemma tok_app_comma a b : tok (a ++ comma :: b) = tok a ++ tok b.
Proof. unfold tok. by rewrite split_app_comma, fmap_app, List.filter_app. Qed.

Lemma tok_ws c s : is_ws c = true -> c ≠ comma -> tok (c :: s) = tok s.
Proof.
  intros Hw Hc. unfold tok. rewrite split_cons_ws by done.
  destruct (split s) as [|p ps] eqn:E; [by apply split_nonempty in E|].
  simpl. by rewrite trim_ws.
Qed.

Lemma tok_join xs : tok (join (lit ", ") xs) = concat (tok <$> xs).
Proof.
  induction xs as [|x r IH]; [done|].
  destruct r as [|y r].
  - simpl. by rewrite app_nil_r.
  - change (join (lit ", ") (x :: y :: r))
      with (x ++ comma :: space :: join (lit ", ") (y :: r)).
    rewrite tok_app_comma, tok_ws by done. rewrite IH. done.
Qed.

Lemma tok_token x : is_token x -> tok x = [x].
Proof.
  intros (H1 & H2 & H3). unfold tok. rewrite split_no_comma by done.
  simpl. rewrite H3. by destruct x.
Qed.

Lemma elem_of_tok t s : t ∈ tok s -> is_token t.
Proof.
  unfold tok. intros H. apply list_elem_of_In, filter_In in H as [H Ht].
  apply list_elem_of_In, list_elem_of_fmap in H as (p & -> & Hp).
  split_and!.
  - by destruct (trim p).
  - intros Hc. apply trim_sub in Hc. by apply split_pieces in Hp.
  - apply trim_idem.
Qed.

Lemma concat_tok_tokens S : Forall is_token S -> concat (tok <$> S) = S.
Proof.
  induction 1 as [|x S Hx _ IH]; [done|].
  change (tok x ++ concat (tok <$> S) = x :: S).
  rewrite IH, tok_token by done. done.
Qed.

Lemma elem_of_parseIds_token str t : t ∈ parseIds str -> is_token t.
Proof. unfold parseIds. rewrite elem_of_mkSet, idTokens_tok. apply elem_of_tok. Qed.

Lemma NoDup_parseIds str : NoDup (parseIds str).
Proof. apply NoDup_mkSet. Qed.

Lemma Forall_token_parseIds str : Forall is_token (parseIds str).
Proof. apply Forall_forall. intros t. apply elem_of_parseIds_token. Qed.

Lemma Forall_token_fold_add L S :
  Forall is_token S -> Forall is_token L -> Forall is_token (fold_left add L S).
Proof.
  rewrite !Forall_forall. intros HS HL y Hy.
  apply elem_of_fold_add in Hy as [?|?]; auto.
Qed.

(** Reading back a joined duplicate-free list of tokens. *)
Lemma parseIds_join S :
  NoDup S -> Forall is_token S -> parseIds (Some (join (lit ", ") S)) = S.
Proof.
  intros H1 H2. unfold parseIds.
  rewrite idTokens_Some, tok_join, concat_tok_tokens by done.
  by apply mkSet_NoDup.
Qed.

Lemma elem_of_concat_tok y (S : list jsstring) :
  y ∈ concat (tok <$> S) <-> ∃ x, x ∈ S ∧ y ∈ tok x.
Proof.
  rewrite list_elem_of_In, in_concat. split.
  - intros (l & Hl & Hy). apply list_elem_of_In, list_elem_of_fmap in Hl as (x & -> & Hx).
    apply list_elem_of_In in Hy. eauto.
  - intros (x & Hx & Hy). exists (tok x). split; [|by apply list_elem_of_In].
    apply list_elem_of_In, list_elem_of_fmap. eauto.
Qed.

(** What [parseIds] reads from the result of [mergeIds]. *)
Lemma elem_of_parse_merge existing newIds y :
  y ∈ parseIds (Some (mergeIds existing newIds)) <->
  y ∈ parseIds existing ∨ ∃ x, x ∈ newIds ∧ y ∈ tokensOf x.
Proof.
  unfold mergeIds, parseIds at 1. fold (parseIds existing).
  rewrite elem_of_mkSet, idTokens_Some, tok_join, elem_of_concat_tok.
  split.
  - intros (x & Hx & Hy). apply elem_of_fold_add in Hx as [Hx|Hx].
    + left. apply elem_of_parseIds_token in Hx as Ht.
      rewrite tok_token in Hy by done. by apply list_elem_of_singleton in Hy as ->.
    + right. exists x. unfold tokensOf. by rewrite idTokens_Some.
  - intros [Hy|(x & Hx & Hy)].
    + exists y. split; [apply elem_of_fold_add; by left|].
      rewrite tok_token by by eapply elem_of_parseIds_token. by left.
    + exists x. split; [apply elem_of_fold_add; by right|].
      unfold tokensOf in Hy. by rewrite idTokens_Some in Hy.
Qed.

Lemma parse_merge_tokens existing newIds :
  Forall is_token newIds ->
  parseIds (Some (mergeIds existing newIds)) = fold_left add newIds (parseIds existing).
Proof.
  intros H. unfold mergeIds. fold (parseIds existing).
  apply parseIds_join.
  - apply NoDup_fold_add, NoDup_parseIds.
  - apply Forall_token_fold_add; [apply Forall_token_parseIds|done].
Qed.

Lemma tokensOf_token x : is_token x -> tokensOf x = [x].
Proof. intros H. unfold tokensOf. rewrite idTokens_Some. by apply tok_token. Qed.

End IdFacts.

(** ** The reconciler as a function of the batch record *)

Module Reconciler.
Import JS JSFacts SetFacts IdFacts.

Lemma bind_eq {A B} (m : M A) (k : A -> M B) w :
  bind m k w = match m w with
               | (Ok a, w') => k a w'
               | (Throw e, w') => (Throw e, w')
               end.
Proof. done. Qed.

Lemma atGet_Some id w f : store w !! id = Some f -> atGet id w = (Ok f, w).
Proof. intros H. unfold atGet. by rewrite H. Qed.

Lemma atGet_None id w : store w !! id = None -> atGet id w = (Throw AirtableGetFailed, w).
Proof. intros H. unfold atGet. by rewrite H. Qed.

Lemma atPatch_Some id p w f :
  store w !! id = Some f ->
  atPatch id p w
  = (Ok (applyPatch p f), setStore (<[id := applyPatch p f]> (store w)) w).
Proof. intros H. unfold atPatch. by rewrite H. Qed.

Lemma markCompleted_present r w f :
  store w !! r = Some f ->
  markCompleted r w
  = (Ok tt,
     if allSeen (jobIds f) (seenIds f)
     then setStore (<[r := applyPatch
                            (mkFields None None None None None (Some (lit "completed"))
                                      None None None None None (Some (clock w))) f]>
                      (store w)) w
     else w).
Proof.
  intros H. unfold markCompleted. rewrite bind_eq, (atGet_Some _ _ _ H).
  fold (jobIds f). fold (seenIds f). destruct (allSeen _ _); [|done].
  rewrite bind_eq. unfold nowISO, DateNow.
  by rewrite bind_eq, (atPatch_Some _ _ _ _ H).
Qed.

Lemma appendOutputs_missing r outs j fl w :
  store w !! r = None ->
  appendOutputs r outs j fl w
  = (Throw AirtableGetFailed, addEvent (EvReconcile r j outs fl) w).
Proof.
  intros H. unfold appendOutputs. rewrite bind_eq. unfold emit.
  rewrite bind_eq, atGet_None; done.
Qed.

Lemma appendOutputs_present r outs j fl w f :
  store w !! r = Some f ->
  appendOutputs r outs j fl w
  = (Ok tt,
     mkWorld (<[r := reconciled (clock w) outs j fl f]> (store w))
             (requestMap w) (clock w)
             (trace w ++ [EvReconcile r j outs fl])).
Proof.
  intros H. unfold appendOutputs. rewrite bind_eq. unfold emit.
  rewrite bind_eq, (atGet_Some _ _ f) by done.
  rewrite bind_eq. unfold nowISO, DateNow.
  rewrite bind_eq, (atPatch_Some _ _ _ f) by done.
  fold (outputList f).
  change (applyPatch _ f) with (appended (clock w) outs j fl f).
  erewrite markCompleted_present by (simpl; apply lookup_insert_eq).
  unfold reconciled. f_equal.
  destruct (allSeen _ _); unfold setStore, addEvent; simpl; [|done].
  by rewrite insert_insert_eq.
Qed.

Lemma batch_invoke_present r w i f :
  store w !! r = Some f ->
  batch r (invoke r w i)
  = reconciled (clock w + Z.of_N (inv_delay i)) (inv_outputs i) (inv_job i) (inv_failed i) f.
Proof.
  intros H. unfold invoke, batch.
  erewrite appendOutputs_present by (simpl; exact H).
  simpl. by rewrite lookup_insert_eq.
Qed.

Lemma store_invoke_missing r w i :
  store w !! r = None -> store (invoke r w i) = store w.
Proof.
  intros H. unfold invoke. by rewrite appendOutputs_missing.
Qed.

Lemma store_invoke_other r r' w i :
  r ≠ r' -> store (invoke r w i) !! r' = store w !! r'.
Proof.
  intros Hn. destruct (store w !! r) as [f|] eqn:H.
  - unfold invoke. erewrite appendOutputs_present by (simpl; exact H).
    simpl. by rewrite lookup_insert_ne.
  - by rewrite store_invoke_missing.
Qed.

Lemma batch_invoke_missing r w i :
  store w !! r = None -> batch r (invoke r w i) = batch r w.
Proof. intros H. unfold batch. by rewrite store_invoke_missing. Qed.

Lemma invoke_keeps_presence r w i :
  is_Some (store (invoke r w i) !! r) <-> is_Some (store w !! r).
Proof.
  destruct (store w !! r) as [f|] eqn:H.
  - unfold invoke. erewrite appendOutputs_present by (simpl; exact H).
    simpl. rewrite lookup_insert_eq. split; eauto.
  - rewrite store_invoke_missing, H by done. done.
Qed.

(** Field by field. *)

Lemma RequestIDs_reconciled t outs j fl f :
  RequestIDs (reconciled t outs j fl f) = RequestIDs f.
Proof. unfold reconciled. by destruct (allSeen _ _). Qed.

Lemma inputs_reconciled t outs j fl f :
  Prompt (reconciled t outs j fl f) = Prompt f ∧
  Subject (reconciled t outs j fl f) = Subject f ∧
  Size (reconciled t outs j fl f) = Size f ∧
  BatchCount (reconciled t outs j fl f) = BatchCount f ∧
  Model (reconciled t outs j fl f) = Model f.
Proof. unfold reconciled. by destruct (allSeen _ _). Qed.

Lemma SeenIDs_reconciled t outs j fl f :
  SeenIDs (reconciled t outs j fl f) = Some (mergeIds (SeenIDs f) [j]).
Proof. unfold reconciled. by destruct (allSeen _ _). Qed.

Lemma FailedIDs_reconciled t outs j fl f :
  FailedIDs (reconciled t outs j fl f)
  = if fl then Some (mergeIds (FailedIDs f) [j]) else FailedIDs f.
Proof.
  unfold reconciled. destruct (allSeen _ _); destruct fl; simpl; try done;
    by destruct (FailedIDs f).
Qed.

Lemma outputList_reconciled t outs j fl f :
  outputList (reconciled t outs j fl f) = outputList f ++ imap (outputEntry j) outs.
Proof. unfold reconciled. by destruct (allSeen _ _). Qed.

Lemma jobIds_reconciled t outs j fl f :
  jobIds (reconciled t outs j fl f) = jobIds f.
Proof. unfold jobIds. by rewrite RequestIDs_reconciled. Qed.

Lemma elem_of_seenIds_reconciled t outs j fl f y :
  y ∈ seenIds (reconciled t outs j fl f) <-> y ∈ seenIds f ∨ y ∈ tokensOf j.
Proof.
  unfold seenIds. rewrite SeenIDs_reconciled, elem_of_parse_merge.
  split; intros [?|H]; auto.
  - destruct H as (x & Hx & Hy). apply list_elem_of_singleton in Hx as ->. by right.
  - right. exists j. split; [by left|done].
Qed.

Lemma elem_of_failedIds_reconciled t outs j fl f y :
  y ∈ failedIds (reconciled t outs j fl f) <->
  y ∈ failedIds f ∨ (fl = true ∧ y ∈ tokensOf j).
Proof.
  unfold failedIds. rewrite FailedIDs_reconciled. destruct fl.
  - rewrite elem_of_parse_merge. split; intros [?|H]; auto.
    + destruct H as (x & Hx & Hy). apply list_elem_of_singleton in Hx as ->. by right.
    + right. exists j. split; [by left|tauto].
  - split; [by left|]. intros [?|[? _]]; done.
Qed.

(** The completion test after the merge decides status and time stamp. *)
Lemma Status_reconciled t outs j fl f :
  Status (reconciled t outs j fl f)
  = if allSeen (jobIds f) (seenIds (reconciled t outs j fl f))
    then Some (lit "completed") else Status f.
Proof.
  unfold seenIds at 1. rewrite SeenIDs_reconciled.
  unfold reconciled.
  replace (jobIds (appended t outs j fl f)) with (jobIds f) by done.
  replace (seenIds (appended t outs j fl f))
    with (parseIds (Some (mergeIds (SeenIDs f) [j]))) by done.
  by destruct (allSeen _ _).
Qed.

Lemma CompletedAt_reconciled t outs j fl f :
  CompletedAt (reconciled t outs j fl f)
  = if allSeen (jobIds f) (seenIds (reconciled t outs j fl f))
    then Some t else CompletedAt f.
Proof.
  unfold seenIds at 1. rewrite SeenIDs_reconciled.
  unfold reconciled.
  replace (jobIds (appended t outs j fl f)) with (jobIds f) by done.
  replace (seenIds (appended t outs j fl f))
    with (parseIds (Some (mergeIds (SeenIDs f) [j]))) by done.
  by destruct (allSeen _ _).
Qed.

(** Merging the same id a second time reads back as the same set. *)
Lemma parse_merge_twice s x :
  parseIds (Some (mergeIds (Some (mergeIds s [x])) [x]))
  = parseIds (Some (mergeIds s [x])).
Proof.
  set (m1 := mergeIds s [x]).
  set (P1 := parseIds (Some m1)).
  unfold mergeIds at 1. fold (parseIds (Some m1)). fold P1. simpl.
  unfold parseIds at 1. rewrite idTokens_Some, tok_join.
  assert (HN : NoDup P1) by apply NoDup_parseIds.
  assert (HT : Forall is_token P1) by apply Forall_token_parseIds.
  destruct (decide (x ∈ P1)) as [Hx|Hx].
  - rewrite add_present by done. rewrite concat_tok_tokens by done.
    by apply mkSet_NoDup.
  - rewrite add_fresh by done. rewrite fmap_app, concat_app, concat_tok_tokens by done.
    simpl. rewrite app_nil_r. rewrite mkSet_app_present; [by apply mkSet_NoDup|].
    intros y Hy. unfold P1, m1. apply elem_of_parse_merge. right.
    exists x. split; [by left|]. unfold tokensOf. by rewrite idTokens_Some.
Qed.

End Reconciler.

(** ** Claims about the id-set encoding *)

(** C10 — the id-set encoding round-trips and deduplicates.  Reading back
    what [mergeIds] wrote gives a duplicate-free set whose members are the
    ids read from the old string together with the trimmed non-empty tokens
    of the new ids.  For new ids that are themselves tokens the result is
    exactly the old set with the new ids added in order, and the raw
    comma-separated field holds no id twice.  Merging ids that are already
    present leaves the set as it was. *)
Theorem mergeIds_parseIds_roundtrip (existing : option jsstring) (newIds : list jsstring) :
  let merged := Some (mergeIds existing newIds) in
  NoDup (parseIds merged) ∧
  (∀ y, y ∈ parseIds merged <->
        y ∈ parseIds existing ∨ ∃ x, x ∈ newIds ∧ y ∈ tokensOf x) ∧
  (Forall is_token newIds ->
     parseIds merged = fold_left JS.add newIds (parseIds existing) ∧
     (∀ y, y ∈ parseIds merged <-> y ∈ parseIds existing ∨ y ∈ newIds) ∧
     NoDup (idTokens merged)) ∧
  (newIds ⊆ parseIds existing -> parseIds merged = parseIds existing).
Proof.
  intros merged. unfold merged. split_and!.
  - apply IdFacts.NoDup_parseIds.
  - intros y. apply IdFacts.elem_of_parse_merge.
  - intros HT. split_and!.
    + by apply IdFacts.parse_merge_tokens.
    + intros y. rewrite IdFacts.parse_merge_tokens by done.
      apply SetFacts.elem_of_fold_add.
    + unfold mergeIds. rewrite IdFacts.idTokens_Some, IdFacts.tok_join.
      fold (parseIds existing).
      rewrite IdFacts.concat_tok_tokens.
      * apply SetFacts.NoDup_fold_add, IdFacts.NoDup_parseIds.
      * apply IdFacts.Forall_token_fold_add; [apply IdFacts.Forall_token_parseIds|done].
  - intros Hsub.
    assert (HT : Forall is_token newIds).
    { apply Forall_forall. intros x Hx. eapply IdFacts.elem_of_parseIds_token. by apply Hsub. }
    rewrite IdFacts.parse_merge_tokens by done.
    by apply SetFacts.fold_add_present.
Qed.

(** The round trip on a Seen IDs field holding [A, B] when [B] and [C]
    are notified. *)
Lemma mergeIds_parseIds_roundtrip_witness :
  Forall is_token [lit "B"; lit "C"] ∧
  parseIds (Some (mergeIds (Some (lit "A, B")) [lit "B"; lit "C"]))
  = [lit "A"; lit "B"; lit "C"].
Proof.
  assert (H : Forall is_token [lit "B"; lit "C"]).
  { apply (bool_decide_unpack _). by vm_compute. }
  split; [exact H|].
  destruct (mergeIds_parseIds_roundtrip (Some (lit "A, B")) [lit "B"; lit "C"])
    as (_ & _ & Ht & _).
  destruct (Ht H) as (-> & _). reflexivity.
Defined.

(** ** Claims about the reconciler *)

Section ReconcilerClaims.
Import Reconciler.

Lemma batch_invoke r w i :
  (store w !! r = None ∧ batch r (invoke r w i) = batch r w) ∨
  (is_Some (store w !! r) ∧
   batch r (invoke r w i)
   = reconciled (clock w + Z.of_N (inv_delay i)) (inv_outputs i) (inv_job i)
       (inv_failed i) (batch r w)).
Proof.
  destruct (store w !! r) as [f|] eqn:H.
  - right. split; [eauto|]. rewrite (batch_invoke_present _ _ _ f H).
    unfold batch. by rewrite H.
  - left. split; [done|]. by apply batch_invoke_missing.
Qed.

Lemma batch_appendOutputs r outs j fl w :
  (store w !! r = None ∧ batch r (appendOutputs r outs j fl w).2 = batch r w) ∨
  (is_Some (store w !! r) ∧
   batch r (appendOutputs r outs j fl w).2 = reconciled (clock w) outs j fl (batch r w)).
Proof.
  destruct (store w !! r) as [f|] eqn:H.
  - right. split; [eauto|]. rewrite (appendOutputs_present _ _ _ _ _ f H).
    unfold batch. simpl. by rewrite lookup_insert_eq, H.
  - left. split; [done|]. rewrite appendOutputs_missing by done.
    unfold batch. simpl. done.
Qed.

(** C9 — frame of the reconciler.  A call of [appendOutputs] (with the
    [markCompleted] it ends in) leaves the Request IDs field and the input
    fields Prompt, Subject and Size of the batch as they were, and likewise
    Batch Count and Model, every other record of the table, and the job
    registry: what it writes is among Seen IDs, Failed IDs, Output, Last
    Update, Status and Completed At of that one record. *)
Theorem reconciler_frame (r : RecordId) (outs : list jsstring) (j : jsstring)
    (fl : bool) (w : World) :
  let w' := (appendOutputs r outs j fl w).2 in
  RequestIDs (batch r w') = RequestIDs (batch r w) ∧
  Prompt (batch r w') = Prompt (batch r w) ∧
  Subject (batch r w') = Subject (batch r w) ∧
  Size (batch r w') = Size (batch r w) ∧
  BatchCount (batch r w') = BatchCount (batch r w) ∧
  Model (batch r w') = Model (batch r w) ∧
  (∀ r', r' ≠ r -> store w' !! r' = store w !! r') ∧
  requestMap w' = requestMap w.
Proof.
  intros w'. unfold w'.
  destruct (batch_appendOutputs r outs j fl w) as [[H ->]|[H ->]].
  - rewrite appendOutputs_missing by done. split_and!; done.
  - destruct (inputs_reconciled (clock w) outs j fl (batch r w)) as (? & ? & ? & ? & ?).
    rewrite RequestIDs_reconciled. destruct H as [f H].
    rewrite (appendOutputs_present _ _ _ _ _ f H). simpl.
    split_and!; try done.
    intros r' Hr. by rewrite lookup_insert_ne.
Qed.

(** C1, as the code has it — a second call with the same arguments reads
    back the same Seen IDs and Failed IDs sets as the first, whatever the
    clock shows by then; the Output list is that of the first call followed
    by the entries of the outcome once more, hence the same list exactly when
    the outcome carries no outputs (as every failure outcome does). *)
Theorem appendOutputs_twice (r : RecordId) (outs : list jsstring) (j : jsstring)
    (fl : bool) (t' : Z) (w : World) :
  is_Some (store w !! r) ->
  let w1 := (appendOutputs r outs j fl w).2 in
  let w2 := (appendOutputs r outs j fl (setClock t' w1)).2 in
  seenIds (batch r w2) = seenIds (batch r w1) ∧
  failedIds (batch r w2) = failedIds (batch r w1) ∧
  outputList (batch r w2) = outputList (batch r w1) ++ imap (outputEntry j) outs ∧
  (outs = [] -> outputList (batch r w2) = outputList (batch r w1)).
Proof.
  intros [f H] w1 w2.
  assert (E1 : batch r w1 = reconciled (clock w) outs j fl f).
  { unfold w1. rewrite (appendOutputs_present _ _ _ _ _ f H).
    unfold batch. simpl. by rewrite lookup_insert_eq. }
  assert (H1 : store (setClock t' w1) !! r = Some (batch r w1)).
  { unfold w1. rewrite (appendOutputs_present _ _ _ _ _ f H).
    unfold batch. simpl. by rewrite lookup_insert_eq. }
  assert (E2 : batch r w2 = reconciled t' outs j fl (batch r w1)).
  { unfold w2. rewrite (appendOutputs_present _ _ _ _ _ _ H1).
    unfold batch. simpl. by rewrite lookup_insert_eq. }
  rewrite E2, E1. clear.
  assert (HO : ∀ g, outputList (reconciled t' outs j fl g)
                    = outputList g ++ imap (outputEntry j) outs)
    by (intros; apply outputList_reconciled).
  split_and!.
  - unfold seenIds. rewrite !SeenIDs_reconciled. apply parse_merge_twice.
  - unfold failedIds. rewrite !FailedIDs_reconciled. destruct fl; [|done].
    apply parse_merge_twice.
  - apply HO.
  - intros ->. rewrite HO. simpl. by rewrite app_nil_r.
Qed.

Lemma appendOutputs_twice_witness :
  let w := sampleWorld (sampleBatch "processing" "A, B" "" "" None None) 1000 in
  let w1 := (appendOutputs recA [] (lit "A") true w).2 in
  let w2 := (appendOutputs recA [] (lit "A") true (setClock 2000 w1)).2 in
  is_Some (store w !! recA) ∧
  seenIds (batch recA w2) = seenIds (batch recA w1) ∧
  outputList (batch recA w2) = outputList (batch recA w1).
Proof.
  intros w w1 w2.
  assert (H : is_Some (store w !! recA)) by (eexists; by vm_compute).
  destruct (appendOutputs_twice recA [] (lit "A") true 2000 w H) as (H1 & _ & _ & H4).
  split_and!; [exact H|exact H1|exact (H4 eq_refl)].
Defined.

(** C1, counterexample — job [A] of a batch succeeds with one output and
    is notified twice (push and poll): the second call appends the output
    again although [A] is already in Seen IDs. *)
Lemma appendOutputs_twice_duplicates :
  let w := sampleWorld (sampleBatch "processing" "A, B" "" "" None None) 1000 in
  let w1 := (appendOutputs recA [lit "u1"] (lit "A") false w).2 in
  let w2 := (appendOutputs recA [lit "u1"] (lit "A") false w1).2 in
  lit "A" ∈ seenIds (batch recA w1) ∧
  length (outputList (batch recA w1)) = 1%nat ∧
  length (outputList (batch recA w2)) = 2%nat ∧
  ¬ (outputList (batch recA w2) = outputList (batch recA w1) ∧
     seenIds (batch recA w2) = seenIds (batch recA w1)).
Proof.
  split_and!.
  - apply (bool_decide_unpack _). by vm_compute.
  - by vm_compute.
  - by vm_compute.
  - intros [H _]. apply (f_equal length) in H. vm_compute in H. discriminate.
Qed.

(** C2, as the code has it — on a batch whose status is [completed] a
    reconciler call leaves the status [completed]; Completed At is written
    anew, with the time of the call, whenever the completion test holds
    after the merge (as it does on every batch that met it before), and is
    left alone otherwise. *)
Theorem completed_stays_completed (r : RecordId) (outs : list jsstring)
    (j : jsstring) (fl : bool) (w : World) :
  is_Some (store w !! r) ->
  isCompleted (batch r w) ->
  let f' := batch r (appendOutputs r outs j fl w).2 in
  isCompleted f' ∧
  (allAccounted (batch r w) -> CompletedAt f' = Some (clock w)) ∧
  (allAccounted f' -> CompletedAt f' = Some (clock w)) ∧
  (¬ allAccounted f' -> CompletedAt f' = CompletedAt (batch r w)).
Proof.
  intros HS HC f'. unfold f'.
  destruct (batch_appendOutputs r outs j fl w) as [[H _]|[_ ->]].
  { rewrite H in HS. by destruct HS. }
  set (f := batch r w) in *.
  assert (HA : allAccounted (reconciled (clock w) outs j fl f) <->
               allSeen (jobIds f) (seenIds (reconciled (clock w) outs j fl f)) = true).
  { unfold allAccounted. rewrite jobIds_reconciled. symmetry. apply SetFacts.allSeen_spec. }
  unfold isCompleted. rewrite Status_reconciled, CompletedAt_reconciled.
  split_and!.
  - by destruct (allSeen _ _).
  - intros [Hne Hsub]. replace (allSeen _ _) with true; [done|].
    symmetry. apply SetFacts.allSeen_spec. split; [done|].
    intros y Hy. apply elem_of_seenIds_reconciled. left. by apply Hsub.
  - intros Ha. apply HA in Ha. by rewrite Ha.
  - intros Ha. destruct (allSeen _ _) eqn:E; [|done]. exfalso. by apply Ha, HA.
Qed.

Lemma completed_stays_completed_witness :
  let w := sampleWorld (sampleBatch "completed" "A" "A" "" None (Some 100)) 200 in
  let f' := batch recA (appendOutputs recA [] (lit "B") true w).2 in
  is_Some (store w !! recA) ∧ isCompleted (batch recA w) ∧ isCompleted f'.
Proof.
  intros w f'.
  assert (H1 : is_Some (store w !! recA)) by (eexists; by vm_compute).
  assert (H2 : isCompleted (batch recA w)) by by vm_compute.
  split_and!; [exact H1|exact H2|].
  exact (proj1 (completed_stays_completed recA [] (lit "B") true w H1 H2)).
Defined.

(** C2, counterexample — a batch completed at time 100; the poller of
    its only job [A] reports after the push did, at time 200: the status
    stays [completed] but Completed At moves to 200. *)
Lemma completedAt_restamped :
  let w := sampleWorld (sampleBatch "completed" "A" "A" "" None (Some 100)) 200 in
  let f' := batch recA (appendOutputs recA [lit "u1"] (lit "A") false w).2 in
  isCompleted (batch recA w) ∧
  CompletedAt f' = Some 200 ∧
  ¬ (Status f' = Status (batch recA w) ∧ CompletedAt f' = CompletedAt (batch recA w)).
Proof.
  split_and!.
  - by vm_compute.
  - by vm_compute.
  - intros [_ H]. vm_compute in H. discriminate.
Qed.

End ReconcilerClaims.

(** ** Claims about sequences of reconciler calls *)

Section Sequences.
Import Reconciler.

Lemma jobIds_invoke r w i : jobIds (batch r (invoke r w i)) = jobIds (batch r w).
Proof.
  destruct (batch_invoke r w i) as [[_ ->]|[_ ->]]; [done|].
  apply jobIds_reconciled.
Qed.

Lemma jobIds_invokeAll r invs w :
  jobIds (batch r (invokeAll r invs w)) = jobIds (batch r w).
Proof.
  revert w. induction invs as [|i invs IH]; intros w; [done|].
  simpl. by rewrite IH, jobIds_invoke.
Qed.

Lemma seenIds_invoke_grows r w i :
  seenIds (batch r w) ⊆ seenIds (batch r (invoke r w i)).
Proof.
  destruct (batch_invoke r w i) as [[_ ->]|[_ ->]]; [done|].
  intros y Hy. apply elem_of_seenIds_reconciled. by left.
Qed.

Lemma failed_seen_invoke r w i :
  failedIds (batch r w) ⊆ seenIds (batch r w) ->
  failedIds (batch r (invoke r w i)) ⊆ seenIds (batch r (invoke r w i)).
Proof.
  intros H. destruct (batch_invoke r w i) as [[_ ->]|[_ ->]]; [done|].
  intros y Hy. apply elem_of_failedIds_reconciled in Hy.
  apply elem_of_seenIds_reconciled. destruct Hy as [Hy|[_ Hy]]; [left; by apply H|by right].
Qed.

Lemma seen_jobs_invoke r w i :
  seenIds (batch r w) ⊆ jobIds (batch r w) ->
  inv_job i ∈ jobIds (batch r w) ->
  seenIds (batch r (invoke r w i)) ⊆ jobIds (batch r (invoke r w i)).
Proof.
  intros H Hj. rewrite jobIds_invoke.
  destruct (batch_invoke r w i) as [[_ ->]|[_ ->]]; [done|].
  intros y Hy. apply elem_of_seenIds_reconciled in Hy as [Hy|Hy]; [by apply H|].
  rewrite IdFacts.tokensOf_token in Hy by (by eapply IdFacts.elem_of_parseIds_token).
  by apply list_elem_of_singleton in Hy as ->.
Qed.

(** C3, as the code has it — over every sequence of reconciler calls,
    Failed IDs stays a subset of Seen IDs once it is one (as after the
    reset of the coordinator, where both are empty); Seen IDs stays a subset
    of Request IDs as long as every reconciled job id is among the Request
    IDs: the reconciler adds the id it is given without looking at Request
    IDs. *)
Theorem reconciler_subsets (r : RecordId) (invs : list Invocation) (w : World) :
  failedIds (batch r w) ⊆ seenIds (batch r w) ->
  let f := batch r (invokeAll r invs w) in
  failedIds f ⊆ seenIds f ∧
  (seenIds (batch r w) ⊆ jobIds (batch r w) ->
   Forall (fun i => inv_job i ∈ jobIds (batch r w)) invs ->
   seenIds f ⊆ jobIds f).
Proof.
  revert w. induction invs as [|i invs IH]; intros w H f.
  - split; [done|]. by intros.
  - unfold f. simpl.
    destruct (IH (invoke r w i) (failed_seen_invoke _ _ _ H)) as [IH1 IH2].
    split; [exact IH1|].
    intros Hs Hall. apply Forall_cons in Hall as [Hi Hall].
    apply IH2.
    + by apply seen_jobs_invoke.
    + by rewrite jobIds_invoke.
Qed.

Lemma reconciler_subsets_witness :
  let w := sampleWorld (sampleBatch "processing" "A, B" "" "" None None) 1000 in
  let invs := [mkInvocation 10 (lit "B") [] true;
               mkInvocation 20 (lit "A") [lit "u1"] false;
               mkInvocation 30 (lit "B") [] true] in
  let f := batch recA (invokeAll recA invs w) in
  failedIds (batch recA w) ⊆ seenIds (batch recA w) ∧
  failedIds f ⊆ seenIds f ∧ seenIds f ⊆ jobIds f.
Proof.
  intros w invs f.
  assert (H0 : failedIds (batch recA w) ⊆ seenIds (batch recA w)).
  { intros y Hy. vm_compute in Hy. by apply elem_of_nil in Hy. }
  destruct (reconciler_subsets recA invs w H0) as [H1 H2].
  split_and!; [exact H0|exact H1|].
  apply H2.
  - intros y Hy. vm_compute in Hy. by apply elem_of_nil in Hy.
  - apply (bool_decide_unpack _). by vm_compute.
Defined.

(** C3, counterexample — the first job of a fan-out finishes and is
    pushed while later submissions are still under way, so Request IDs is
    still the empty string written by the reset: after the call Seen IDs
    holds [A] and Request IDs holds nothing. *)
Lemma seen_not_subset_of_jobs :
  let w := sampleWorld (sampleBatch "processing" "" "" "" None None) 1000 in
  let f := batch recA (invokeAll recA [mkInvocation 0 (lit "A") [lit "u1"] false] w) in
  seenIds f = [lit "A"] ∧ jobIds f = [] ∧
  ¬ (seenIds f ⊆ jobIds f ∧ failedIds f ⊆ seenIds f).
Proof.
  split_and!.
  - by vm_compute.
  - by vm_compute.
  - intros [H _]. specialize (H (lit "A")).
    assert (Hin : lit "A" ∈ [lit "A"]) by by left.
    change (batch _ _) with
      (batch recA (invokeAll recA [mkInvocation 0 (lit "A") [lit "u1"] false]
         (sampleWorld (sampleBatch "processing" "" "" "" None None) 1000))) in H.
    assert (E1 : seenIds (batch recA (invokeAll recA [mkInvocation 0 (lit "A") [lit "u1"] false]
         (sampleWorld (sampleBatch "processing" "" "" "" None None) 1000))) = [lit "A"])
      by by vm_compute.
    assert (E2 : jobIds (batch recA (invokeAll recA [mkInvocation 0 (lit "A") [lit "u1"] false]
         (sampleWorld (sampleBatch "processing" "" "" "" None None) 1000))) = [])
      by by vm_compute.
    rewrite E1, E2 in H. specialize (H Hin). by apply elem_of_nil in H.
Qed.

Lemma allAccounted_reconciled t outs j fl f :
  allAccounted (reconciled t outs j fl f) <->
  allSeen (jobIds f) (seenIds (reconciled t outs j fl f)) = true.
Proof.
  unfold allAccounted. rewrite jobIds_reconciled. symmetry. apply SetFacts.allSeen_spec.
Qed.

Lemma allAccounted_noFields : ¬ allAccounted noFields.
Proof. intros [H _]. by apply H. Qed.

Lemma completionInv_invoke r w i :
  (isCompleted (batch r w) -> allAccounted (batch r w)) ->
  completionInv (batch r (invoke r w i)).
Proof.
  intros HP. destruct (batch_invoke r w i) as [[Hn ->]|[_ ->]].
  - unfold batch. rewrite Hn. split; [done|]. intros H. by apply allAccounted_noFields in H.
  - set (f := batch r w) in *. unfold completionInv.
    rewrite allAccounted_reconciled. unfold isCompleted. rewrite Status_reconciled.
    destruct (allSeen _ _) eqn:E; [done|].
    split; [|done]. intros HC. apply HP in HC as [Hne Hsub].
    rewrite <- E. apply SetFacts.allSeen_spec. split; [done|].
    intros y Hy. apply elem_of_seenIds_reconciled. left. by apply Hsub.
Qed.

Lemma completionInv_invokeAll r invs w :
  completionInv (batch r w) -> completionInv (batch r (invokeAll r invs w)).
Proof.
  revert w. induction invs as [|i invs IH]; intros w H; [done|].
  simpl. apply IH. apply completionInv_invoke. apply H.
Qed.

Lemma Status_invoke_no_jobs r w i :
  jobIds (batch r w) = [] -> Status (batch r (invoke r w i)) = Status (batch r w).
Proof.
  intros H. destruct (batch_invoke r w i) as [[_ ->]|[_ ->]]; [done|].
  rewrite Status_reconciled, H. done.
Qed.

(** C4, as the code has it — for reconciler calls on an existing record
    that are taken one at a time and each run to their end: if the batch
    they start on is [completed] only when Request IDs is non-empty and
    contained in Seen IDs (as is every batch just reset to [processing] by
    the coordinator), then after every call the status is [completed]
    exactly when Request IDs is non-empty and contained in Seen IDs.  A
    batch with no Request IDs keeps its status through every call: it stays
    [processing]. *)
Theorem completed_iff_all_seen (r : RecordId) (invs : list Invocation) (w : World) :
  is_Some (store w !! r) ->
  (isCompleted (batch r w) -> allAccounted (batch r w)) ->
  invs ≠ [] ->
  let f := batch r (invokeAll r invs w) in
  (isCompleted f <-> jobIds f ≠ [] ∧ jobIds f ⊆ seenIds f) ∧
  (jobIds (batch r w) = [] ->
   Status f = Status (batch r w) ∧ ¬ isCompleted f).
Proof.
  intros _ HP Hne f. split.
  - unfold f. destruct invs as [|i invs]; [done|]. simpl.
    apply (completionInv_invokeAll r invs). by apply completionInv_invoke.
  - intros Hj.
    assert (HS : ∀ invs w, jobIds (batch r w) = [] ->
                 Status (batch r (invokeAll r invs w)) = Status (batch r w)).
    { clear. induction invs as [|i invs IH]; intros w Hj; [done|].
      simpl. rewrite IH by (by rewrite jobIds_invoke).
      by apply Status_invoke_no_jobs. }
    split; [by apply HS|].
    unfold f, isCompleted. rewrite HS by done.
    intros HC. apply HP in HC as [HC _]. by apply HC.
Qed.

Lemma completed_iff_all_seen_witness :
  let w := sampleWorld (sampleBatch "processing" "A, B" "" "" None None) 1000 in
  let invs := [mkInvocation 10 (lit "B") [] true;
               mkInvocation 20 (lit "A") [lit "u1"] false] in
  let f := batch recA (invokeAll recA invs w) in
  is_Some (store w !! recA) ∧
  (isCompleted (batch recA w) -> allAccounted (batch recA w)) ∧
  invs ≠ [] ∧
  (isCompleted f <-> jobIds f ≠ [] ∧ jobIds f ⊆ seenIds f) ∧
  isCompleted f.
Proof.
  intros w invs f.
  assert (Hs : is_Some (store w !! recA)) by (eexists; by vm_compute).
  assert (H0 : isCompleted (batch recA w) -> allAccounted (batch recA w)).
  { intros H. vm_compute in H. discriminate. }
  assert (H1 : invs ≠ []) by done.
  split_and!; [exact Hs|exact H0|exact H1| |by vm_compute].
  exact (proj1 (completed_iff_all_seen recA invs w Hs H0 H1)).
Defined.

(** C4, counterexample — job [B] of a batch with Request IDs [A, B] is
    already in Seen IDs; the call for [A] and a second notification for [B]
    overlap, both reading before either writes.  The call for [A] writes
    [B, A] and marks the batch [completed]; the call for [B] then writes
    back the Seen IDs it made from its own read, [B].  Both calls have
    returned: the status is [completed] and [A] is not in Seen IDs. *)
Lemma overlap_breaks_completed_iff :
  let w := sampleWorld (sampleBatch "processing" "A, B" "B" "" None None) 1000 in
  let run := overlapped recA [lit "u1"] (lit "A") false [] (lit "B") false w in
  let f := batch recA run.2 in
  run.1 = Ok tt ∧
  ¬ isCompleted (batch recA w) ∧
  isCompleted f ∧ jobIds f = [lit "A"; lit "B"] ∧ seenIds f = [lit "B"] ∧
  ¬ (isCompleted f <-> jobIds f ≠ [] ∧ jobIds f ⊆ seenIds f).
Proof.
  intros w run f.
  assert (E1 : jobIds f = [lit "A"; lit "B"]) by by vm_compute.
  assert (E2 : seenIds f = [lit "B"]) by by vm_compute.
  assert (HC : isCompleted f) by by vm_compute.
  split_and!; [by vm_compute| |exact HC|exact E1|exact E2|].
  - intros H. vm_compute in H. discriminate.
  - intros [H _]. destruct (H HC) as [_ Hsub].
    rewrite E1, E2 in Hsub.
    specialize (Hsub (lit "A") ltac:(by left)).
    apply list_elem_of_singleton in Hsub. vm_compute in Hsub. discriminate.
Qed.

End Sequences.

(** ** Claims about the fan-out *)

Section FanOut.
Import Reconciler.

Variable renderSize : option jsstring -> jsstring.

Lemma try_submit resp r i bc (ids : list jsstring) w :
  ∃ w',
    try_catch
      (let! rid := submitVariation resp r in
       run! (if Z.of_nat i <? bc - 1 then sleep 1200 else ret tt) in
       ret (ids ++ [rid]))
      (fun _ => ret ids) w
    = (Ok (ids ++ option_list (submittedId resp)), w') ∧
    store w' = store w ∧
    trace w' = trace w ++ [EvSubmit r resp].
Proof.
  unfold try_catch, submitVariation. rewrite !bind_eq. unfold emit.
  destruct resp as [| |data_id id]; simpl.
  - eexists. split_and!; [by rewrite app_nil_r|done|done].
  - eexists. split_and!; [by rewrite app_nil_r|done|done].
  - unfold submittedId.
    destruct (JS.truthy (JS.or_else (or_opt data_id id) [])) eqn:E; simpl.
    + rewrite ?bind_eq. simpl. rewrite ?bind_eq.
      destruct (Z.of_nat i <? bc - 1); simpl; eexists; split_and!; done.
    + eexists. split_and!; [by rewrite app_nil_r|done|done].
Qed.

Lemma submitLoop_run n : ∀ i bc r submits (ids : list jsstring) w,
  ∃ w',
    submitLoop n i bc r submits ids w
    = (Ok (ids ++ omap submittedId (submits <$> seq i n)), w') ∧
    store w' = store w ∧
    trace w' = trace w ++ ((fun k => EvSubmit r (submits k)) <$> seq i n).
Proof.
  induction n as [|n IH]; intros i bc r submits ids w.
  - simpl. eexists. split_and!; [|done|]; by rewrite app_nil_r.
  - cbn [submitLoop]. rewrite bind_eq.
    destruct (try_submit (submits i) r i bc ids w) as (w1 & -> & Hs1 & Ht1).
    destruct (IH (S i) bc r submits (ids ++ option_list (submittedId (submits i))) w1)
      as (w2 & -> & Hs2 & Ht2).
    exists w2. split_and!.
    + f_equal. f_equal. rewrite <- app_assoc. f_equal.
      cbn [seq fmap list_fmap omap list_omap]. by destruct (submittedId (submits i)).
    + congruence.
    + rewrite Ht2, Ht1, <- app_assoc. done.
Qed.

Lemma submitsOf_app a b : submitsOf (a ++ b) = submitsOf a ++ submitsOf b.
Proof. apply omap_app. Qed.

Lemma submitsOf_submits r (submits : nat -> SubmitResp) (l : list nat) :
  submitsOf ((fun k => EvSubmit r (submits k)) <$> l) = submits <$> l.
Proof. unfold submitsOf. induction l as [|k l IH]; [done|]. cbn. by rewrite IH. Qed.

Lemma submitsOf_pollers r (l : list jsstring) :
  submitsOf ((fun rid => EvPoller rid r) <$> l) = [].
Proof. unfold submitsOf. induction l as [|k l IH]; [done|]. cbn. by rewrite IH. Qed.

Lemma length_omap_submitted (l : list SubmitResp) :
  (length (omap submittedId l) <= length l)%nat.
Proof.
  induction l as [|x l IH]; [done|]. cbn [omap list_omap length].
  destruct (submittedId x); simpl; lia.
Qed.

Lemma length_omap_submitted_lt (submits : nat -> SubmitResp) (l : list nat) i :
  i ∈ l -> submittedId (submits i) = None ->
  (length (omap submittedId (submits <$> l)) < length l)%nat.
Proof.
  intros Hin Hnone. induction l as [|k l IH]; [by apply elem_of_nil in Hin|].
  cbn [fmap list_fmap omap list_omap length].
  apply elem_of_cons in Hin as [<-|Hin].
  - rewrite Hnone. pose proof (length_omap_submitted (submits <$> l)) as L.
    rewrite length_fmap in L. lia.
  - specialize (IH Hin). destruct (submittedId (submits k)); simpl; lia.
Qed.

(** A start that passes validation and obtains the image runs the whole
    fan-out and returns. *)
Lemma startVariations_run r d submits w f :
  store w !! r = Some f ->
  JS.truthy (JS.or_else (Prompt f) []) = true ->
  JS.truthy (JS.or_else (subjectUrlOf (Subject f)) []) = true ->
  let n := Z.to_nat (batchCountOf (BatchCount f)) in
  let ids := omap submittedId (submits <$> seq 0 n) in
  ∃ w',
    startVariations renderSize r (Some d) submits w
    = (Ok {| sr_recordId := r; submitted := length ids; requestIds := ids |}, w') ∧
    trace w' = trace w ++ ((fun k => EvSubmit r (submits k)) <$> seq 0 n)
                       ++ ((fun rid => EvPoller rid r) <$> ids) ∧
    RequestIDs (batch r w') = Some (JS.join (lit ", ") ids) ∧
    Status (batch r w') = Some (lit "processing") ∧
    SeenIDs (batch r w') = Some [] ∧
    FailedIDs (batch r w') = Some [].
Proof.
  intros H Hp Hs n ids. unfold startVariations.
  rewrite bind_eq, (atGet_Some _ _ _ H). cbv beta iota.
  rewrite Hp, Hs. change (negb true || negb true) with false. cbv iota.
  rewrite bind_eq. unfold urlToDataURL, ret at 1. rewrite bind_eq. unfold nowISO, DateNow.
  rewrite bind_eq, (atPatch_Some _ _ _ _ H).
  set (f1 := applyPatch _ f). set (w1 := setStore _ w).
  rewrite bind_eq.
  destruct (submitLoop_run n 0 (batchCountOf (BatchCount f)) r submits [] w1)
    as (w2 & E & Hs2 & Ht2).
  fold n. rewrite E. simpl app. fold ids.
  assert (H2 : store w2 !! r = Some f1).
  { rewrite Hs2. unfold w1. simpl. apply lookup_insert_eq. }
  rewrite bind_eq, (atPatch_Some _ _ _ _ H2). rewrite bind_eq.
  eexists. split; [reflexivity|].
  unfold batch. simpl. rewrite lookup_insert_eq. simpl.
  split_and!; try done.
  rewrite Ht2. unfold w1. simpl. by rewrite <- app_assoc.
Qed.

(** The record a start leaves meets what the reconciler properties ask of
    the batch they start on. *)
Lemma startVariations_establishes r d submits w f res w' :
  store w !! r = Some f ->
  startVariations renderSize r (Some d) submits w = (Ok res, w') ->
  ¬ isCompleted (batch r w') ∧
  seenIds (batch r w') = [] ∧
  failedIds (batch r w') = [].
Proof.
  intros H E.
  destruct (JS.truthy (JS.or_else (Prompt f) [])) eqn:Hp;
    [destruct (JS.truthy (JS.or_else (subjectUrlOf (Subject f)) [])) eqn:Hs|].
  - destruct (startVariations_run r d submits w f H Hp Hs)
      as (w'' & E' & _ & _ & Hst & Hse & Hfa).
    rewrite E in E'. injection E' as _ <-.
    unfold isCompleted, seenIds, failedIds. rewrite Hst, Hse, Hfa.
    split_and!; done.
  - unfold startVariations in E. rewrite bind_eq, (atGet_Some _ _ _ H) in E.
    cbv beta iota in E. rewrite Hp, Hs in E. done.
  - unfold startVariations in E. rewrite bind_eq, (atGet_Some _ _ _ H) in E.
    cbv beta iota in E. rewrite Hp in E. done.
Qed.

(** C8 — the fan-out.  A start that passes validation and obtains the
    image attempts every one of the [batchCount] submissions in order,
    whatever the earlier ones answered; it returns, and the ids it returns
    are those of the submissions that succeeded, in submission order; the
    Request IDs field it leaves is their join, and a submission that failed
    contributes no id. *)
Theorem fanout_persists_successes (r : RecordId) (d : jsstring)
    (submits : nat -> SubmitResp) (w : World) (f : Fields) :
  store w !! r = Some f ->
  JS.truthy (JS.or_else (Prompt f) []) = true ->
  JS.truthy (JS.or_else (subjectUrlOf (Subject f)) []) = true ->
  let n := Z.to_nat (batchCountOf (BatchCount f)) in
  ∃ res w' evs,
    startVariations renderSize r (Some d) submits w = (Ok res, w') ∧
    trace w' = trace w ++ evs ∧
    submitsOf evs = submits <$> seq 0 n ∧
    requestIds res = omap submittedId (submits <$> seq 0 n) ∧
    submitted res = length (requestIds res) ∧
    RequestIDs (batch r w') = Some (JS.join (lit ", ") (requestIds res)) ∧
    (∀ i, (i < n)%nat -> submittedId (submits i) = None ->
          length (requestIds res) < n)%nat.
Proof.
  intros H Hp Hs n.
  destruct (startVariations_run r d submits w f H Hp Hs) as (w' & E & Ht & Hr & _).
  fold n in E, Ht, Hr.
  eexists _, w', _. split_and!; [exact E|exact Ht| |done|done|exact Hr|].
  - by rewrite submitsOf_app, submitsOf_submits, submitsOf_pollers, app_nil_r.
  - intros i Hi Hnone. simpl.
    pose proof (length_omap_submitted_lt submits (seq 0 n) i) as G.
    rewrite length_seq in G. apply G; [|done].
    apply list_elem_of_In, in_seq. lia.
Qed.

(** C5, as the code has it — the fan-out is
    [max(1, min(10, Number(count) || 4))]: it lies in [1,10], is 4 for an
    absent count and also for the count 0 (which is falsy), and is the count
    itself from 1 to 10; the counts 0, 1, 10 and 15 give 4, 1, 10 and 10.
    A start that passes validation attempts exactly that many submissions,
    and when all of them succeed that is the number it reports. *)
Theorem fanout_clamp (r : RecordId) (d : jsstring)
    (submits : nat -> SubmitResp) (w : World) (f : Fields) :
  store w !! r = Some f ->
  JS.truthy (JS.or_else (Prompt f) []) = true ->
  JS.truthy (JS.or_else (subjectUrlOf (Subject f)) []) = true ->
  let n := Z.to_nat (batchCountOf (BatchCount f)) in
  (batchCountOf (Some 0) = 4 ∧ batchCountOf (Some 1) = 1 ∧
   batchCountOf (Some 10) = 10 ∧ batchCountOf (Some 15) = 10 ∧
   batchCountOf None = 4) ∧
  (1 <= batchCountOf (BatchCount f) <= 10) ∧
  (∀ c, 1 <= c <= 10 -> batchCountOf (Some c) = c) ∧
  ∃ res w' evs,
    startVariations renderSize r (Some d) submits w = (Ok res, w') ∧
    trace w' = trace w ++ evs ∧
    length (submitsOf evs) = n ∧
    ((∀ i, (i < n)%nat -> is_Some (submittedId (submits i))) -> submitted res = n).
Proof.
  intros H Hp Hs n. split_and!; try done.
  - unfold batchCountOf. destruct (BatchCount f) as [c|]; [destruct (c =? 0)|]; lia.
  - unfold batchCountOf. destruct (BatchCount f) as [c|]; [destruct (c =? 0)|]; lia.
  - intros c Hc. unfold batchCountOf. destruct (Z.eqb_spec c 0); lia.
  - destruct (startVariations_run r d submits w f H Hp Hs) as (w' & E & Ht & _).
    fold n in E, Ht.
    eexists _, w', _. split_and!; [exact E|exact Ht| |].
    + by rewrite submitsOf_app, submitsOf_submits, submitsOf_pollers, app_nil_r,
        length_fmap, length_seq.
    + intros Hall. simpl.
      assert (G : ∀ l : list nat, (∀ i, i ∈ l -> is_Some (submittedId (submits i))) ->
                  length (omap submittedId (submits <$> l)) = length l).
      { induction l as [|k l IH]; intros Hl; [done|].
        cbn [fmap list_fmap omap list_omap length].
        destruct (Hl k) as [x ->]; [by left|]. simpl. rewrite IH; [done|].
        intros i Hi. apply Hl. by right. }
      rewrite G, length_seq; [done|].
      intros i Hi. apply Hall. apply list_elem_of_In, in_seq in Hi. lia.
Qed.

End FanOut.

Lemma fanout_persists_successes_witness :
  let w := sampleWorld (sampleBatch "idle" "" "" "" (Some 5) None) 1000 in
  ∃ res w',
    startVariations sampleSize recA (Some sampleImage) rejectOdd w = (Ok res, w') ∧
    requestIds res = [lit "job0"; lit "job2"; lit "job4"] ∧
    length (submitsOf (trace w')) = 5%nat ∧
    RequestIDs (batch recA w') = Some (lit "job0, job2, job4").
Proof.
  intros w.
  destruct (fanout_persists_successes sampleSize recA sampleImage rejectOdd w
              (sampleBatch "idle" "" "" "" (Some 5) None))
    as (res & w' & evs & E & Ht & Hsub & Hids & _ & Hreq & _);
    [by vm_compute|by vm_compute|by vm_compute|].
  exists res, w'. split_and!.
  - exact E.
  - rewrite Hids. by vm_compute.
  - rewrite Ht, submitsOf_app, Hsub. by vm_compute.
  - rewrite Hreq, Hids. by vm_compute.
Defined.

Lemma fanout_clamp_witness :
  let w := sampleWorld (sampleBatch "idle" "" "" "" (Some 15) None) 1000 in
  ∃ res w',
    startVariations sampleSize recA (Some sampleImage) acceptAll w = (Ok res, w') ∧
    submitted res = 10%nat.
Proof.
  intros w.
  destruct (fanout_clamp sampleSize recA sampleImage acceptAll w
              (sampleBatch "idle" "" "" "" (Some 15) None))
    as (_ & _ & _ & res & w' & evs & E & _ & _ & Hn);
    [by vm_compute|by vm_compute|by vm_compute|].
  exists res, w'. split; [exact E|].
  rewrite Hn; [by vm_compute|].
  intros i _. unfold acceptAll, submittedId. simpl. eauto.
Defined.

(** C5, counterexample — a batch whose Batch Count is 0, every
    submission accepted: four jobs are attempted and reported, not one. *)
Lemma fanout_of_zero_is_four :
  let w := sampleWorld (sampleBatch "idle" "" "" "" (Some 0) None) 1000 in
  let run := startVariations sampleSize recA (Some sampleImage) acceptAll w in
  batchCountOf (Some 0) = 4 ∧
  length (submitsOf (trace run.2)) = 4%nat ∧
  (submitted <$> (match run.1 with Ok res => Some res | Throw _ => None end)) = Some 4%nat ∧
  length (submitsOf (trace run.2)) ≠ 1%nat.
Proof. split_and!; by vm_compute. Qed.

(** ** The push listener *)

(** C7 — a notification whose job id is not in the registry is answered
    with 202 and changes nothing: neither the table, nor the registry, nor
    the trace, so the reconciler is not called. *)
Theorem webhook_unknown_job (b : WebhookBody) (w : World) :
  (∀ k, or_opt (wb_request_id b) (wb_id b) = Some k -> requestMap w !! k = None) ->
  webhook b w = ({| code := 202; ok := Some false |}, w) ∧
  store (webhook b w).2 = store w ∧
  reconcilesOf (trace (webhook b w).2) = reconcilesOf (trace w).
Proof.
  intros H.
  assert (E : webhook b w = ({| code := 202; ok := Some false |}, w)).
  { unfold webhook. destruct (or_opt (wb_request_id b) (wb_id b)) as [k|]; [|done].
    by rewrite (H k eq_refl). }
  by rewrite E.
Qed.

Lemma webhook_unknown_job_witness :
  let w := mkWorld {[ recA := sampleBatch "processing" "A" "" "" None None ]}
                   {[ lit "A" := recA ]} 1000 [] in
  let b := mkWebhook (Some (lit "Z")) None (Some (lit "completed")) (Some [lit "u1"]) in
  webhook b w = ({| code := 202; ok := Some false |}, w).
Proof.
  intros w b. apply (webhook_unknown_job b w).
  intros k Hk. vm_compute in Hk. injection Hk as <-. by vm_compute.
Defined.

(** ** The poller *)

Section Poller.
Import Reconciler.

Lemma appendOutputs_trace r outs j fl w :
  trace (appendOutputs r outs j fl w).2 = trace w ++ [EvReconcile r j outs fl] ∧
  clock (appendOutputs r outs j fl w).2 = clock w.
Proof.
  destruct (store w !! r) as [f|] eqn:H.
  - by rewrite (appendOutputs_present _ _ _ _ _ f H).
  - by rewrite appendOutputs_missing.
Qed.

Lemma getResult_eq j resp w :
  getResult j resp w
  = (match observed resp with Some x => Ok x | None => Throw GetResultFailed end,
     setClock (clock w + Z.of_N (latency resp)) (addEvent (EvFetch j resp) w)).
Proof.
  unfold getResult, observed. rewrite bind_eq. unfold emit. rewrite bind_eq. unfold sleep.
  by destruct (body resp).
Qed.

(** A reconciler call that ends the turn: it returns, or its error leaves
    the poller. *)
Lemma final_call r outs j fl w :
  ∃ res w', (run! appendOutputs r outs j fl in ret true) w = (res, w') ∧
            res ≠ Ok false ∧
            trace w' = trace w ++ [EvReconcile r j outs fl] ∧
            (∀ e, res = Throw e -> store w' = store w).
Proof.
  rewrite bind_eq.
  destruct (appendOutputs_trace r outs j fl w) as [Ht _].
  destruct (store w !! r) as [f|] eqn:H.
  - rewrite (appendOutputs_present _ _ _ _ _ f H) in *.
    eexists _, _. split_and!; [reflexivity|done|exact Ht|done].
  - rewrite appendOutputs_missing in * by done.
    eexists _, _. split_and!; [reflexivity|done|exact Ht|done].
Qed.

Lemma pollBody_pending j r resp w :
  pending resp = true ->
  pollBody j r resp w
  = (Ok false,
     setClock (clock w + Z.of_N (latency resp) + 7000) (addEvent (EvFetch j resp) w)).
Proof.
  unfold pending, pollBody, try_catch. intros H. rewrite bind_eq, getResult_eq.
  destruct (observed resp) as [[st outs]|]; [|done].
  apply andb_true_iff in H as [H1 H2].
  apply negb_true_iff in H1, H2. rewrite H1, H2.
  rewrite bind_eq. by unfold sleep, ret, setClock, addEvent.
Qed.

Lemma pollBody_errored j r resp w :
  errored resp = true ->
  ∃ res w', pollBody j r resp w = (res, w') ∧ res ≠ Ok false ∧
            trace w' = trace w ++ [EvFetch j resp; EvReconcile r j [] true].
Proof.
  unfold errored, pollBody, try_catch. intros H. rewrite bind_eq, getResult_eq.
  destruct (observed resp) as [?|]; [done|].
  destruct (final_call r [] j true
              (setClock (clock w + Z.of_N (latency resp)) (addEvent (EvFetch j resp) w)))
    as (res & w' & -> & Hres & Ht & _).
  exists res, w'. split_and!; [done|done|].
  rewrite Ht. simpl. by rewrite <- app_assoc.
Qed.

Lemma pollBody_terminal j r resp w :
  errored resp = false -> pending resp = false ->
  ∃ res w' tail, pollBody j r resp w = (res, w') ∧ res ≠ Ok false ∧
                 trace w' = trace w ++ EvFetch j resp :: tail ∧
                 fetchesOf tail = [].
Proof.
  unfold errored, pending, pollBody, try_catch. intros He Hp.
  rewrite bind_eq, getResult_eq.
  destruct (observed resp) as [[st outs]|]; [|done].
  set (w1 := setClock _ _).
  assert (Ht1 : trace w1 = trace w ++ [EvFetch j resp]) by done.
  assert (G : ∀ o fl,
    ∃ res w' tail,
      match (run! appendOutputs r o j fl in ret true) w1 with
      | (Ok a, w') => (Ok a, w')
      | (Throw _, w') => (run! appendOutputs r [] j true in ret true) w'
      end = (res, w') ∧ res ≠ Ok false ∧ trace w' = trace w ++ EvFetch j resp :: tail ∧
      fetchesOf tail = []).
  { intros o fl.
    destruct (final_call r o j fl w1) as (res & w2 & -> & Hres & Ht2 & _).
    destruct res as [a|e].
    - exists (Ok a), w2, [EvReconcile r j o fl]. split_and!; [reflexivity|done| |done].
      rewrite Ht2, Ht1, <- app_assoc. done.
    - destruct (final_call r [] j true w2) as (res' & w3 & -> & Hres' & Ht3 & _).
      exists res', w3, [EvReconcile r j o fl; EvReconcile r j [] true].
      split_and!; [reflexivity|done| |done].
      rewrite Ht3, Ht2, Ht1, <- !app_assoc. done. }
  destruct (JS.includes successWords st) eqn:E1; [apply G|].
  destruct (JS.includes failureWords st) eqn:E2; [apply G|].
  done.
Qed.

(** The shape of every run of the loop: status requests answered with a
    status that is not terminal, and then the deadline, an error, or a
    terminal status. *)
Lemma pollLoop_run fuel : ∀ timeout j r fetches k w res w',
  pollLoop fuel timeout j r fetches k w = Some (res, w') ->
  ∃ pend last,
    trace w' = trace w ++ (EvFetch j <$> pend) ++ last ∧
    Forall (fun x => pending x = true) pend ∧
    ((last = [EvReconcile r j [] true] ∧ timeout <= clock w') ∨
     (∃ resp, errored resp = true ∧ last = [EvFetch j resp; EvReconcile r j [] true]) ∨
     (∃ resp tail, errored resp = false ∧ pending resp = false ∧
                   last = EvFetch j resp :: tail ∧ fetchesOf tail = [])).
Proof.
  induction fuel as [|fuel IH]; intros timeout j r fetches k w res w' H; [done|].
  cbn [pollLoop] in H. destruct (Z.ltb_spec (clock w) timeout) as [Hlt|Hge].
  - destruct (pending (fetches k)) eqn:Hp.
    + rewrite pollBody_pending in H by done.
      apply IH in H as (pend & last & Ht & Hall & Hlast).
      exists (fetches k :: pend), last. split_and!.
      * rewrite Ht. simpl. by rewrite <- app_assoc.
      * by constructor.
      * done.
    + destruct (errored (fetches k)) eqn:He.
      * destruct (pollBody_errored j r (fetches k) w He) as (res1 & w1 & E & Hres & Ht).
        rewrite E in H.
        assert (w1 = w') as -> by (destruct res1 as [[]|]; congruence).
        exists [], [EvFetch j (fetches k); EvReconcile r j [] true].
        split_and!; [exact Ht|constructor|].
        right. left. eauto.
      * destruct (pollBody_terminal j r (fetches k) w He Hp)
          as (res1 & w1 & tail & E & Hres & Ht & Hf).
        rewrite E in H.
        assert (w1 = w') as -> by (destruct res1 as [[]|]; congruence).
        exists [], (EvFetch j (fetches k) :: tail).
        split_and!; [exact Ht|constructor|].
        right. right. exists (fetches k), tail. done.
  - injection H as H. destruct (appendOutputs_trace r [] j true w) as [Ht Hc].
    rewrite H in Ht, Hc. simpl in Ht, Hc.
    exists [], [EvReconcile r j [] true]. split_and!; [exact Ht|constructor|].
    left. split; [done|lia].
Qed.

(** The loop ends within the turns the deadline allows. *)
Lemma pollLoop_total fuel : ∀ timeout j r fetches k w,
  timeout - clock w <= 7000 * Z.of_nat fuel ->
  ∃ x, pollLoop (S fuel) timeout j r fetches k w = Some x.
Proof.
  induction fuel as [|fuel IH]; intros timeout j r fetches k w H.
  - cbn [pollLoop]. destruct (Z.ltb_spec (clock w) timeout); [lia|eauto].
  - cbn [pollLoop]. destruct (Z.ltb_spec (clock w) timeout) as [Hlt|Hge]; [|eauto].
    destruct (pending (fetches k)) eqn:Hp.
    + rewrite pollBody_pending by done. apply IH. simpl. lia.
    + destruct (errored (fetches k)) eqn:He.
      * destruct (pollBody_errored j r (fetches k) w He) as (res1 & w1 & -> & Hres & _).
        destruct res1 as [[]|]; [eauto|done|eauto].
      * destruct (pollBody_terminal j r (fetches k) w He Hp)
          as (res1 & w1 & tail & -> & Hres & _).
        destruct res1 as [[]|]; [eauto|done|eauto].
Qed.

(** More turns than needed change nothing. *)
Lemma pollLoop_more_fuel fuel : ∀ fuel' timeout j r fetches k w x,
  (fuel <= fuel')%nat ->
  pollLoop fuel timeout j r fetches k w = Some x ->
  pollLoop fuel' timeout j r fetches k w = Some x.
Proof.
  induction fuel as [|fuel IH]; intros fuel' timeout j r fetches k w x Hle H; [done|].
  destruct fuel' as [|fuel']; [lia|].
  cbn [pollLoop] in *. destruct (clock w <? timeout); [|done].
  destruct (pollBody j r (fetches k) w) as [[[]|] w1]; [done| |done].
  apply IH; [lia|done].
Qed.

Lemma pollUntilDone_fuel fuel j r fetches w :
  (pollFuel <= fuel)%nat ->
  pollUntilDone fuel j r fetches w = pollUntilDone pollFuel j r fetches w.
Proof.
  intros Hle. unfold pollUntilDone.
  destruct (pollLoop_total 172 (clock w + 20 * 60 * 1000) j r fetches 0%nat w)
    as [x E]; [lia|].
  change (S 172) with pollFuel in E. rewrite E.
  by apply (pollLoop_more_fuel pollFuel).
Qed.

Lemma fetchesOf_app a b : fetchesOf (a ++ b) = fetchesOf a ++ fetchesOf b.
Proof. apply omap_app. Qed.

Lemma reconcilesOf_app a b : reconcilesOf (a ++ b) = reconcilesOf a ++ reconcilesOf b.
Proof. apply omap_app. Qed.

Lemma fetchesOf_fetches j (l : list FetchResp) : fetchesOf (EvFetch j <$> l) = l.
Proof. unfold fetchesOf. induction l as [|x l IH]; [done|]. cbn. by rewrite IH. Qed.

Lemma reconcilesOf_fetches j (l : list FetchResp) : reconcilesOf (EvFetch j <$> l) = [].
Proof. unfold reconcilesOf. induction l as [|x l IH]; [done|]. cbn. by rewrite IH. Qed.

(** C6, as the code has it — every run of the poller returns.  If a status request of the
    run met a transport or parse error, the run made exactly one reconciler
    call, a failure without outputs, right after that request, and made no
    further request.  If no status request of the run was answered with a
    terminal status, the run made exactly one reconciler call, a failure
    without outputs; and if moreover none met an error, that call is the
    last step of the run and comes no earlier than 20 minutes after its
    start.  (Every status request of a run is made before the deadline; the
    answer to the last one may arrive after it.) *)
Theorem poller_reconciles_once (fuel : nat) (j : jsstring) (r : RecordId)
    (fetches : nat -> FetchResp) (w : World) :
  (pollFuel <= fuel)%nat ->
  ∃ res w' evs,
    pollUntilDone fuel j r fetches w = Some (res, w') ∧
    trace w' = trace w ++ evs ∧
    (∀ resp, resp ∈ fetchesOf evs -> errored resp = true ->
       reconcilesOf evs = [(r, j, [], true)] ∧
       ∃ evs0, evs = evs0 ++ [EvFetch j resp; EvReconcile r j [] true]) ∧
    ((∀ resp, resp ∈ fetchesOf evs -> errored resp = true ∨ pending resp = true) ->
       reconcilesOf evs = [(r, j, [], true)]) ∧
    ((∀ resp, resp ∈ fetchesOf evs -> pending resp = true) ->
       reconcilesOf evs = [(r, j, [], true)] ∧
       clock w + 20 * 60 * 1000 <= clock w' ∧
       ∃ evs0, evs = evs0 ++ [EvReconcile r j [] true]).
Proof.
  intros Hfuel. unfold pollUntilDone.
  destruct fuel as [|fuel]; [unfold pollFuel in Hfuel; lia|].
  destruct (pollLoop_total fuel (clock w + 20 * 60 * 1000) j r fetches 0%nat w)
    as [[res w'] E]; [unfold pollFuel in Hfuel; lia|].
  destruct (pollLoop_run _ _ _ _ _ _ _ _ _ E) as (pend & last & Ht & Hall & Hlast).
  exists res, w', ((EvFetch j <$> pend) ++ last). split_and!; [exact E|exact Ht| | |].
  - intros resp Hin He.
    rewrite fetchesOf_app, fetchesOf_fetches in Hin.
    apply elem_of_app in Hin as [Hin|Hin].
    { rewrite Forall_forall in Hall. apply Hall in Hin.
      unfold errored, pending in *. destruct (observed resp); congruence. }
    destruct Hlast as [[-> _]|[(resp' & He' & ->)|(resp' & tail & He' & _ & -> & Hf)]].
    + by apply elem_of_nil in Hin.
    + cbn in Hin. apply list_elem_of_singleton in Hin as ->.
      split; [|by exists (EvFetch j <$> pend)].
      by rewrite reconcilesOf_app, reconcilesOf_fetches.
    + change (fetchesOf (EvFetch j resp' :: tail)) with (resp' :: fetchesOf tail) in Hin.
      rewrite Hf in Hin. apply list_elem_of_singleton in Hin as ->. congruence.
  - intros Hnt.
    assert (Hl : ∀ resp, resp ∈ fetchesOf last -> errored resp = true ∨ pending resp = true).
    { intros resp Hin. apply Hnt. rewrite fetchesOf_app. apply elem_of_app. by right. }
    destruct Hlast as [[-> Hc]|[(resp' & He' & ->)|(resp' & tail & He' & Hp' & -> & _)]].
    + by rewrite reconcilesOf_app, reconcilesOf_fetches.
    + by rewrite reconcilesOf_app, reconcilesOf_fetches.
    + specialize (Hl resp').
      change (fetchesOf (EvFetch j resp' :: tail)) with (resp' :: fetchesOf tail) in Hl.
      destruct (Hl ltac:(by left)); congruence.
  - intros Hpend.
    assert (Hl : ∀ resp, resp ∈ fetchesOf last -> pending resp = true).
    { intros resp Hin. apply Hpend. rewrite fetchesOf_app. apply elem_of_app. by right. }
    destruct Hlast as [[-> Hc]|[(resp' & He' & ->)|(resp' & tail & _ & Hp' & -> & _)]].
    + split_and!; [|exact Hc|by exists (EvFetch j <$> pend)].
      by rewrite reconcilesOf_app, reconcilesOf_fetches.
    + specialize (Hl resp'). cbn in Hl. specialize (Hl ltac:(by left)).
      unfold errored, pending in *. destruct (observed resp'); congruence.
    + specialize (Hl resp').
      change (fetchesOf (EvFetch j resp' :: tail)) with (resp' :: fetchesOf tail) in Hl.
      specialize (Hl ltac:(by left)). congruence.
Qed.

End Poller.

(** Two runs on job [A]: one whose third status request gets no answer, one
    that is answered [Processing] until the deadline. *)
Lemma poller_reconciles_once_witness :
  let w := sampleWorld (sampleBatch "processing" "A" "" "" None None) 1000 in
  (pollFuel <= pollFuel)%nat ∧
  (∃ res w' evs,
     pollUntilDone pollFuel (lit "A") recA failsThird w = Some (res, w') ∧
     trace w' = trace w ++ evs ∧
     length (fetchesOf evs) = 3%nat ∧
     reconcilesOf evs = [(recA, lit "A", [], true)]) ∧
  (∃ res w' evs,
     pollUntilDone pollFuel (lit "A") recA neverDone w = Some (res, w') ∧
     trace w' = trace w ++ evs ∧
     length (fetchesOf evs) = 160%nat ∧
     reconcilesOf evs = [(recA, lit "A", [], true)] ∧
     clock w + 20 * 60 * 1000 <= clock w').
Proof.
  intros w.
  assert (Hfuel : (pollFuel <= pollFuel)%nat) by lia.
  split_and!; [exact Hfuel| |].
  - destruct (poller_reconciles_once pollFuel (lit "A") recA failsThird w Hfuel)
      as (res & w' & evs & E & Ht & HA & _ & _).
    assert (Etr : match pollUntilDone pollFuel (lit "A") recA failsThird w with
                  | Some (_, x) => trace x | None => [] end = evs)
      by (by rewrite E, Ht).
    exists res, w', evs. split_and!; [exact E|exact Ht|by rewrite <- Etr|].
    apply (HA (mkFetch 500 FetchNetworkError)); [|done].
    rewrite <- Etr.
    assert (Ef : fetchesOf (match pollUntilDone pollFuel (lit "A") recA failsThird w with
                            | Some (_, x) => trace x | None => [] end)
                 = [stillProcessing; stillProcessing; mkFetch 500 FetchNetworkError])
      by by vm_compute.
    rewrite Ef. right. right. by left.
  - destruct (poller_reconciles_once pollFuel (lit "A") recA neverDone w Hfuel)
      as (res & w' & evs & E & Ht & _ & _ & HB).
    assert (Etr : match pollUntilDone pollFuel (lit "A") recA neverDone w with
                  | Some (_, x) => trace x | None => [] end = evs)
      by (by rewrite E, Ht).
    destruct HB as (H1 & H2 & _).
    { intros resp Hin. rewrite <- Etr in Hin.
      assert (Hall : Forall (fun x => pending x = true)
                (fetchesOf (match pollUntilDone pollFuel (lit "A") recA neverDone w with
                            | Some (_, x) => trace x | None => [] end))).
      { apply (bool_decide_unpack _). by vm_compute. }
      rewrite Forall_forall in Hall. apply Hall. exact Hin. }
    exists res, w', evs. split_and!; [exact E|exact Ht|by rewrite <- Etr|exact H1|exact H2].
Defined.

(** C6, counterexample — the deadline is looked at only between
    turns.  A status request made 3 seconds before the deadline is answered
    2 seconds after it with [completed]: no terminal status was seen before
    the deadline, and the job is reconciled once, as a success. *)
Lemma late_answer_is_honoured :
  let w := sampleWorld (sampleBatch "processing" "A" "" "" None None) 1000 in
  let deadline := clock w + 20 * 60 * 1000 in
  match pollUntilDone pollFuel (lit "A") recA answersLate w with
  | Some (res, w') =>
      fetchesOf (trace w') = (answersLate <$> seq 0 171) ++ [answersLate 171%nat] ∧
      Forall (fun x => pending x = true) (answersLate <$> seq 0 171) ∧
      pending (answersLate 171%nat) = false ∧
      clock w + 171 * 7000 < deadline ∧
      deadline < clock w' ∧
      reconcilesOf (trace w') = [(recA, lit "A", [lit "u1"], false)] ∧
      reconcilesOf (trace w') ≠ [(recA, lit "A", [], true)]
  | None => False
  end.
Proof.
  vm_compute. split_and!; try done.
  apply (bool_decide_unpack _). by vm_compute.
Qed.

(** * Further properties of the code *)

(** ** The id-set encoding, continued *)

Section IdEncoding.
Import JS JSFacts SetFacts IdFacts.

(** X1 — merging in two steps is merging once: for well-formed ids,
    [mergeIds] of the text written by an earlier [mergeIds] is the text of
    one [mergeIds] with both lists; in particular merging the same ids again
    leaves the text of the field as it is, character for character. *)
Theorem mergeIds_accumulates (s : option jsstring) (L1 L2 : list jsstring) :
  Forall is_token L1 ->
  mergeIds (Some (mergeIds s L1)) L2 = mergeIds s (L1 ++ L2) ∧
  mergeIds (Some (mergeIds s L1)) L1 = mergeIds s L1.
Proof.
  intros HT.
  assert (E : ∀ L, mergeIds (Some (mergeIds s L1)) L = mergeIds s (L1 ++ L)).
  { intros L. unfold mergeIds at 1. fold (parseIds (Some (mergeIds s L1))).
    rewrite parse_merge_tokens by done.
    unfold mergeIds. fold (parseIds s). by rewrite fold_left_app. }
  split; [apply E|].
  rewrite E. unfold mergeIds. fold (parseIds s). rewrite fold_left_app.
  f_equal. apply fold_add_present.
  intros y Hy. apply elem_of_fold_add. by right.
Qed.

Lemma mergeIds_accumulates_witness :
  Forall is_token [lit "B"] ∧
  mergeIds (Some (mergeIds (Some (lit "A")) [lit "B"])) [lit "C"; lit "A"]
  = lit "A, B, C".
Proof.
  assert (H : Forall is_token [lit "B"]).
  { apply (bool_decide_unpack _). by vm_compute. }
  split; [exact H|].
  rewrite (proj1 (mergeIds_accumulates (Some (lit "A")) [lit "B"] [lit "C"; lit "A"] H)).
  reflexivity.
Defined.

(** X2 — whatever text an id field holds, [parseIds] reads a list
    without repetition whose members are non-empty, free of commas and of
    surrounding white space; writing that list back with [", "] between the
    ids and reading it again gives the same list. *)
Theorem parseIds_normal_form (str : option jsstring) :
  NoDup (parseIds str) ∧
  Forall is_token (parseIds str) ∧
  parseIds (Some (join (lit ", ") (parseIds str))) = parseIds str.
Proof.
  split_and!.
  - apply NoDup_parseIds.
  - apply Forall_token_parseIds.
  - apply parseIds_join; [apply NoDup_parseIds|apply Forall_token_parseIds].
Qed.

End IdEncoding.

(** ** Sequences of reconciler calls, continued *)

Section MoreSequences.
Import Reconciler.

Lemma invokeAll_snoc r invs i w :
  invokeAll r (invs ++ [i]) w = invoke r (invokeAll r invs w) i.
Proof. unfold invokeAll. by rewrite fold_left_app. Qed.

Lemma presence_invokeAll r invs w :
  is_Some (store w !! r) -> is_Some (store (invokeAll r invs w) !! r).
Proof.
  revert w. induction invs as [|i invs IH]; intros w H; [done|].
  simpl. apply IH. by apply invoke_keeps_presence.
Qed.

Lemma batch_invoke_some r w i :
  is_Some (store w !! r) ->
  batch r (invoke r w i)
  = reconciled (clock w + Z.of_N (inv_delay i)) (inv_outputs i) (inv_job i)
      (inv_failed i) (batch r w).
Proof.
  intros H. destruct (batch_invoke r w i) as [[Hn _]|[_ E]]; [|done].
  rewrite Hn in H. by destruct H.
Qed.

Lemma outputList_invokeAll r invs : ∀ w,
  is_Some (store w !! r) ->
  outputList (batch r (invokeAll r invs w))
  = outputList (batch r w) ++ concat (entriesOf <$> invs).
Proof.
  induction invs as [|i invs IH]; intros w H.
  - simpl. by rewrite app_nil_r.
  - cbn [invokeAll fold_left]. fold (invokeAll r invs (invoke r w i)).
    rewrite IH by (by apply invoke_keeps_presence).
    rewrite batch_invoke_some, outputList_reconciled by done.
    cbn [fmap list_fmap concat]. by rewrite <- app_assoc.
Qed.

Lemma elem_of_seenIds_invokeAll r invs : ∀ w y,
  is_Some (store w !! r) ->
  y ∈ seenIds (batch r (invokeAll r invs w)) <->
  y ∈ seenIds (batch r w) ∨ ∃ i, i ∈ invs ∧ y ∈ tokensOf (inv_job i).
Proof.
  induction invs as [|i invs IH]; intros w y H.
  - simpl. split; [by left|]. intros [?|(i & Hi & _)]; [done|by apply elem_of_nil in Hi].
  - cbn [invokeAll fold_left]. fold (invokeAll r invs (invoke r w i)).
    rewrite IH by (by apply invoke_keeps_presence).
    rewrite batch_invoke_some, elem_of_seenIds_reconciled by done.
    split.
    + intros [[?|?]|(i' & Hi & ?)]; [by left| |].
      * right. exists i. split; [by left|done].
      * right. exists i'. split; [by right|done].
    + intros [?|(i' & Hi & ?)]; [by left; left|].
      apply elem_of_cons in Hi as [->|Hi]; [by left; right|].
      right. by exists i'.
Qed.

Lemma elem_of_failedIds_invokeAll r invs : ∀ w y,
  is_Some (store w !! r) ->
  y ∈ failedIds (batch r (invokeAll r invs w)) <->
  y ∈ failedIds (batch r w) ∨
  ∃ i, i ∈ invs ∧ inv_failed i = true ∧ y ∈ tokensOf (inv_job i).
Proof.
  induction invs as [|i invs IH]; intros w y H.
  - simpl. split; [by left|]. intros [?|(i & Hi & _)]; [done|by apply elem_of_nil in Hi].
  - cbn [invokeAll fold_left]. fold (invokeAll r invs (invoke r w i)).
    rewrite IH by (by apply invoke_keeps_presence).
    rewrite batch_invoke_some, elem_of_failedIds_reconciled by done.
    split.
    + intros [[?|[? ?]]|(i' & Hi & ?)]; [by left| |].
      * right. exists i. split; [by left|done].
      * right. exists i'. split; [by right|done].
    + intros [?|(i' & Hi & Hf & ?)]; [by left; left|].
      apply elem_of_cons in Hi as [->|Hi]; [by left; right|].
      right. by exists i'.
Qed.

Lemma allAccounted_grows t outs j fl f :
  allAccounted f -> allAccounted (reconciled t outs j fl f).
Proof.
  intros [H1 H2]. unfold allAccounted. rewrite jobIds_reconciled. split; [done|].
  intros y Hy. apply elem_of_seenIds_reconciled. left. by apply H2.
Qed.

Lemma isCompleted_reconciled t outs j fl f :
  isCompleted (reconciled t outs j fl f) <->
  isCompleted f ∨ allAccounted (reconciled t outs j fl f).
Proof.
  rewrite allAccounted_reconciled. unfold isCompleted. rewrite Status_reconciled.
  destruct (allSeen _ _); [by split; [right|]|].
  split; [by left|]. by intros [?|?].
Qed.

Lemma isCompleted_invokeAll r invs : ∀ w,
  is_Some (store w !! r) ->
  invs ≠ [] ->
  isCompleted (batch r (invokeAll r invs w)) <->
  isCompleted (batch r w) ∨ allAccounted (batch r (invokeAll r invs w)).
Proof.
  induction invs as [|i invs IH] using rev_ind; intros w H Hne; [done|].
  rewrite invokeAll_snoc.
  rewrite batch_invoke_some by (by apply presence_invokeAll).
  rewrite isCompleted_reconciled.
  destruct invs as [|i0 invs0]; [done|].
  rewrite IH by done.
  split; [|tauto].
  intros [[?|Ha]|?]; [by left| |by right].
  right. by apply allAccounted_grows.
Qed.

(** X3 — the Output list only grows, at its end: after any sequence of
    reconciler calls on an existing record it is the list from before
    followed by the entries of each call in call order, a call's entries
    being its output urls in order, the [i]-th named
    [var_<job id>_<i>.png]. *)
Theorem outputs_append_only (r : RecordId) (invs : list Invocation) (w : World) :
  is_Some (store w !! r) ->
  outputList (batch r (invokeAll r invs w))
  = outputList (batch r w)
    ++ concat ((fun i => imap (fun k u =>
                   {| url := u;
                      filename := lit "var_" ++ inv_job i ++ lit "_" ++ decimal k
                                  ++ lit ".png" |}) (inv_outputs i)) <$> invs).
Proof. intros H. by apply outputList_invokeAll. Qed.

Lemma outputs_append_only_witness :
  let w := sampleWorld (sampleBatch "processing" "A, B" "" "" None None) 1000 in
  let invs := [mkInvocation 10 (lit "B") [lit "u1"; lit "u2"] false;
               mkInvocation 20 (lit "A") [] true] in
  is_Some (store w !! recA) ∧
  filename <$> outputList (batch recA (invokeAll recA invs w))
  = [lit "var_B_0.png"; lit "var_B_1.png"].
Proof.
  intros w invs.
  assert (H : is_Some (store w !! recA)) by (eexists; by vm_compute).
  split; [exact H|].
  rewrite (outputs_append_only recA invs w H). reflexivity.
Defined.

(** X4 — which ids end up in Seen IDs and Failed IDs: after any sequence
    of reconciler calls on an existing record, an id is in Seen IDs exactly
    when it was there before or is (a token of) the job id of some call, and
    in Failed IDs exactly when it was there before or is the job id of some
    call that reported a failure.  An id is never taken out, and a later
    success does not clear an earlier failure. *)
Theorem ids_after_calls (r : RecordId) (invs : list Invocation) (w : World)
    (y : jsstring) :
  is_Some (store w !! r) ->
  let f := batch r (invokeAll r invs w) in
  (y ∈ seenIds f <->
   y ∈ seenIds (batch r w) ∨ ∃ i, i ∈ invs ∧ y ∈ tokensOf (inv_job i)) ∧
  (y ∈ failedIds f <->
   y ∈ failedIds (batch r w) ∨
   ∃ i, i ∈ invs ∧ inv_failed i = true ∧ y ∈ tokensOf (inv_job i)).
Proof.
  intros H f. split.
  - by apply elem_of_seenIds_invokeAll.
  - by apply elem_of_failedIds_invokeAll.
Qed.

Lemma ids_after_calls_witness :
  let w := sampleWorld (sampleBatch "processing" "A, B" "" "" None None) 1000 in
  let invs := [mkInvocation 10 (lit "B") [] true;
               mkInvocation 20 (lit "B") [lit "u1"] false] in
  is_Some (store w !! recA) ∧
  lit "B" ∈ failedIds (batch recA (invokeAll recA invs w)).
Proof.
  intros w invs.
  assert (H : is_Some (store w !! recA)) by (eexists; by vm_compute).
  split; [exact H|].
  apply (ids_after_calls recA invs w (lit "B") H).
  right. exists (mkInvocation 10 (lit "B") [] true).
  split_and!; [by left|done|by left].
Defined.

(** X5 — the order of the calls does not matter for the id sets or the
    status: two sequences with the same calls in different orders leave
    the same members in Seen IDs and in Failed IDs, and either both leave the
    batch [completed] or neither does. *)
Theorem call_order_irrelevant (r : RecordId) (invs invs' : list Invocation)
    (w : World) :
  is_Some (store w !! r) ->
  invs ≡ₚ invs' ->
  let f := batch r (invokeAll r invs w) in
  let f' := batch r (invokeAll r invs' w) in
  (∀ y, y ∈ seenIds f <-> y ∈ seenIds f') ∧
  (∀ y, y ∈ failedIds f <-> y ∈ failedIds f') ∧
  (isCompleted f <-> isCompleted f').
Proof.
  intros H Hp f f'.
  assert (Hs : ∀ y, y ∈ seenIds f <-> y ∈ seenIds f').
  { intros y. unfold f, f'. rewrite !elem_of_seenIds_invokeAll by done.
    by setoid_rewrite Hp. }
  split_and!; [exact Hs| |].
  - intros y. unfold f, f'. rewrite !elem_of_failedIds_invokeAll by done.
    by setoid_rewrite Hp.
  - destruct invs as [|i invs].
    { apply Permutation_nil_l in Hp. by subst invs'. }
    assert (Hne' : invs' ≠ []).
    { intros ->. by apply Permutation_nil_r in Hp. }
    unfold f, f' in *. rewrite !isCompleted_invokeAll by done.
    unfold allAccounted. rewrite !jobIds_invokeAll.
    split; (intros [?|[H1 H2]]; [by left|right; split; [done|]]);
      intros y Hy; apply Hs; by apply H2.
Qed.

Lemma call_order_irrelevant_witness :
  let w := sampleWorld (sampleBatch "processing" "A, B" "" "" None None) 1000 in
  let a := mkInvocation 10 (lit "A") [lit "u1"] false in
  let b := mkInvocation 20 (lit "B") [] true in
  is_Some (store w !! recA) ∧ [a; b] ≡ₚ [b; a] ∧
  (isCompleted (batch recA (invokeAll recA [a; b] w)) <->
   isCompleted (batch recA (invokeAll recA [b; a] w))).
Proof.
  intros w a b.
  assert (H : is_Some (store w !! recA)) by (eexists; by vm_compute).
  assert (Hp : [a; b] ≡ₚ [b; a]) by apply Permutation_swap.
  split_and!; [exact H|exact Hp|].
  exact (proj2 (proj2 (call_order_irrelevant recA [a; b] [b; a] w H Hp))).
Defined.

(** X6 — a batch completes once every job is accounted for: on an
    existing record with at least one Request ID, any sequence of reconciler
    calls that names every Request ID at least once leaves the status
    [completed], and a Completed At stamp, whatever the outcomes, the order,
    the repetitions and the other ids reconciled along the way. *)
Theorem all_jobs_seen_completes (r : RecordId) (invs : list Invocation) (w : World) :
  is_Some (store w !! r) ->
  jobIds (batch r w) ≠ [] ->
  (∀ id, id ∈ jobIds (batch r w) -> ∃ i, i ∈ invs ∧ inv_job i = id) ->
  let f := batch r (invokeAll r invs w) in
  isCompleted f ∧ is_Some (CompletedAt f) ∧ jobIds f ⊆ seenIds f.
Proof.
  intros H Hne Hall f.
  assert (Hinvs : invs ≠ []).
  { destruct (jobIds (batch r w)) as [|id l] eqn:E; [done|].
    destruct (Hall id) as (i & Hi & _); [by left|]. intros ->. by apply elem_of_nil in Hi. }
  assert (Hsub : jobIds f ⊆ seenIds f).
  { unfold f. rewrite jobIds_invokeAll. intros id Hid.
    apply elem_of_seenIds_invokeAll; [done|]. right.
    destruct (Hall id Hid) as (i & Hi & Hj). exists i. split; [done|].
    rewrite Hj, IdFacts.tokensOf_token; [by left|].
    by eapply IdFacts.elem_of_parseIds_token. }
  assert (Ha : allAccounted f).
  { split; [|done]. unfold f. by rewrite jobIds_invokeAll. }
  split_and!; [| |done].
  - unfold f. apply isCompleted_invokeAll; [done|done|by right].
  - unfold f in *. clear Hsub Hall Hne f.
    destruct invs as [|i invs _] using rev_ind; [done|].
    rewrite invokeAll_snoc in *.
    rewrite batch_invoke_some in * by (by apply presence_invokeAll).
    rewrite CompletedAt_reconciled.
    apply allAccounted_reconciled in Ha. by rewrite Ha.
Qed.

Lemma all_jobs_seen_completes_witness :
  let w := sampleWorld (sampleBatch "processing" "A, B" "" "" None None) 1000 in
  let invs := [mkInvocation 10 (lit "B") [] true;
               mkInvocation 20 (lit "Z") [] true;
               mkInvocation 30 (lit "A") [] true] in
  is_Some (store w !! recA) ∧
  isCompleted (batch recA (invokeAll recA invs w)) ∧
  outputList (batch recA (invokeAll recA invs w)) = [].
Proof.
  intros w invs.
  assert (H : is_Some (store w !! recA)) by (eexists; by vm_compute).
  split_and!; [exact H| |by vm_compute].
  apply (all_jobs_seen_completes recA invs w H).
  - by vm_compute.
  - intros id Hid.
    assert (E : jobIds (batch recA w) = [lit "A"; lit "B"]) by by vm_compute.
    rewrite E in Hid.
    apply elem_of_cons in Hid as [->|Hid].
    + exists (mkInvocation 30 (lit "A") [] true). split; [|done]. right. right. by left.
    + apply list_elem_of_singleton in Hid as ->.
      exists (mkInvocation 10 (lit "B") [] true). split; [by left|done].
Defined.

End MoreSequences.

(** ** The fan-out, continued *)

Section MoreFanOut.
Import Reconciler.

Variable renderSize : option jsstring -> jsstring.

Lemma try_submit_world resp r i bc (ids : list jsstring) w :
  ∃ w',
    try_catch
      (let! rid := submitVariation resp r in
       run! (if Z.of_nat i <? bc - 1 then sleep 1200 else ret tt) in
       ret (ids ++ [rid]))
      (fun _ => ret ids) w
    = (Ok (ids ++ option_list (submittedId resp)), w') ∧
    store w' = store w ∧
    trace w' = trace w ++ [EvSubmit r resp] ∧
    requestMap w' = registerAll r (option_list (submittedId resp)) (requestMap w) ∧
    clock w' = clock w
               + (if decide (Z.of_nat i < bc - 1)
                  then 1200 * Z.of_nat (length (option_list (submittedId resp)))
                  else 0).
Proof.
  unfold try_catch, submitVariation. rewrite !bind_eq. unfold emit.
  destruct resp as [| |data_id id]; simpl.
  - eexists. split_and!; [by rewrite app_nil_r|done|done|done|case_decide; simpl; lia].
  - eexists. split_and!; [by rewrite app_nil_r|done|done|done|case_decide; simpl; lia].
  - unfold submittedId.
    destruct (JS.truthy (JS.or_else (or_opt data_id id) [])) eqn:E; simpl.
    + rewrite ?bind_eq. simpl. rewrite ?bind_eq.
      destruct (Z.ltb_spec (Z.of_nat i) (bc - 1)); simpl; eexists;
        (split_and!; [done|done|done|done|case_decide; simpl; lia]).
    + eexists. split_and!; [by rewrite app_nil_r|done|done|done|case_decide; simpl; lia].
Qed.

Lemma registerAll_app r a b m :
  registerAll r (a ++ b) m = registerAll r b (registerAll r a m).
Proof. unfold registerAll. apply fold_left_app. Qed.

Lemma submitLoop_world n : ∀ i bc r submits (ids : list jsstring) w,
  ∃ w',
    submitLoop n i bc r submits ids w
    = (Ok (ids ++ omap submittedId (submits <$> seq i n)), w') ∧
    store w' = store w ∧
    trace w' = trace w ++ ((fun k => EvSubmit r (submits k)) <$> seq i n) ∧
    requestMap w'
    = registerAll r (omap submittedId (submits <$> seq i n)) (requestMap w) ∧
    clock w'
    = clock w + 1200 * Z.of_nat (length (omap submittedId
                  (submits <$> filter (fun k => Z.of_nat k < bc - 1) (seq i n)))).
Proof.
  induction n as [|n IH]; intros i bc r submits ids w.
  - simpl. eexists. split_and!; [|done| |done|simpl; lia]; by rewrite app_nil_r.
  - cbn [submitLoop]. rewrite bind_eq.
    destruct (try_submit_world (submits i) r i bc ids w)
      as (w1 & -> & Hs1 & Ht1 & Hr1 & Hc1).
    destruct (IH (S i) bc r submits (ids ++ option_list (submittedId (submits i))) w1)
      as (w2 & -> & Hs2 & Ht2 & Hr2 & Hc2).
    exists w2.
    assert (E : omap submittedId (submits <$> seq i (S n))
                = option_list (submittedId (submits i))
                  ++ omap submittedId (submits <$> seq (S i) n)).
    { cbn [seq fmap list_fmap omap list_omap]. by destruct (submittedId (submits i)). }
    split_and!.
    + by rewrite E, app_assoc.
    + congruence.
    + rewrite Ht2, Ht1, <- app_assoc. done.
    + by rewrite Hr2, Hr1, E, registerAll_app.
    + rewrite Hc2, Hc1. cbn [seq]. case_decide.
      * rewrite filter_cons_True by done.
        cbn [fmap list_fmap omap list_omap].
        destruct (submittedId (submits i)); simpl length; lia.
      * rewrite filter_cons_False by done. lia.
Qed.

Lemma filter_below_seq (m n : nat) :
  filter (fun k => Z.of_nat k < Z.of_nat m) (seq 0 n) = seq 0 (n `min` m).
Proof.
  induction n as [|n IH]; [done|].
  rewrite seq_S, filter_app, IH. change (0 + n)%nat with n.
  destruct (decide (n < m)%nat) as [H|H].
  - rewrite filter_cons_True by lia. rewrite filter_nil.
    replace (S n `min` m)%nat with (S n) by lia.
    replace (n `min` m)%nat with n by lia. by rewrite seq_S.
  - rewrite filter_cons_False by lia. rewrite filter_nil, app_nil_r.
    f_equal. lia.
Qed.

(** The world a start that passes validation leaves. *)
Lemma startVariations_world r d submits w f :
  store w !! r = Some f ->
  JS.truthy (JS.or_else (Prompt f) []) = true ->
  JS.truthy (JS.or_else (subjectUrlOf (Subject f)) []) = true ->
  let n := Z.to_nat (batchCountOf (BatchCount f)) in
  let ids := omap submittedId (submits <$> seq 0 n) in
  ∃ w',
    startVariations renderSize r (Some d) submits w
    = (Ok {| sr_recordId := r; submitted := length ids; requestIds := ids |}, w') ∧
    store w'
    = <[r := applyPatch (requestIdsPatch ids)
               (applyPatch (resetPatch (renderSize (Size f)) (clock w)) f)]> (store w) ∧
    requestMap w' = registerAll r ids (requestMap w) ∧
    clock w'
    = clock w + 1200 * Z.of_nat (length (omap submittedId (submits <$> seq 0 (n - 1)))) ∧
    trace w' = trace w ++ ((fun k => EvSubmit r (submits k)) <$> seq 0 n)
                       ++ ((fun rid => EvPoller rid r) <$> ids).
Proof.
  intros H Hp Hs n ids. unfold startVariations.
  rewrite bind_eq, (atGet_Some _ _ _ H). cbv beta iota.
  rewrite Hp, Hs. change (negb true || negb true) with false. cbv iota.
  rewrite bind_eq. unfold urlToDataURL, ret at 1. rewrite bind_eq. unfold nowISO, DateNow.
  rewrite bind_eq, (atPatch_Some _ _ _ _ H).
  fold (resetPatch (renderSize (Size f)) (clock w)).
  set (f1 := applyPatch _ f). set (w1 := setStore _ w).
  rewrite bind_eq.
  destruct (submitLoop_world n 0 (batchCountOf (BatchCount f)) r submits [] w1)
    as (w2 & E & Hs2 & Ht2 & Hr2 & Hc2).
  fold n. rewrite E. simpl app. fold ids.
  assert (H2 : store w2 !! r = Some f1).
  { rewrite Hs2. unfold w1. simpl. apply lookup_insert_eq. }
  rewrite bind_eq, (atPatch_Some _ _ _ _ H2). rewrite bind_eq.
  fold (requestIdsPatch ids).
  eexists. split; [reflexivity|]. simpl.
  split_and!.
  - rewrite Hs2. unfold w1. simpl. by rewrite insert_insert_eq.
  - by rewrite Hr2.
  - assert (Hb : 1 <= batchCountOf (BatchCount f) <= 10).
    { unfold batchCountOf. destruct (BatchCount f) as [c|]; [destruct (c =? 0)|]; lia. }
    assert (Ef : filter (fun k => Z.of_nat k < batchCountOf (BatchCount f) - 1) (seq 0 n)
                 = seq 0 (n - 1)).
    { replace (batchCountOf (BatchCount f) - 1) with (Z.of_nat (n - 1)) by (unfold n; lia).
      rewrite filter_below_seq. f_equal. lia. }
    by rewrite Hc2, Ef.
  - rewrite Ht2. unfold w1. simpl. by rewrite <- app_assoc.
Qed.

(** What it takes for a start to succeed. *)
Lemma startVariations_Ok_inv r image submits w res w' :
  startVariations renderSize r image submits w = (Ok res, w') ->
  ∃ f d, store w !! r = Some f ∧ image = Some d ∧
         JS.truthy (JS.or_else (Prompt f) []) = true ∧
         JS.truthy (JS.or_else (subjectUrlOf (Subject f)) []) = true.
Proof.
  unfold startVariations. rewrite bind_eq. unfold atGet.
  destruct (store w !! r) as [f|]; [|done].
  destruct (JS.truthy (JS.or_else (Prompt f) [])) eqn:Hp; [|done].
  destruct (JS.truthy (JS.or_else (subjectUrlOf (Subject f)) [])) eqn:Hs; [|done].
  destruct image as [d|]; [|done].
  intros _. by exists f, d.
Qed.

(** X7 — a start that fails early fails before it writes: when the read
    of the record fails, when the prompt or the subject url is missing or
    empty, or when the image cannot be downloaded, the start throws that
    error and the table, the registry, the clock and the trace are as they
    were: no field was reset and no job was submitted. *)
Theorem start_fails_before_writing (r : RecordId) (image : option jsstring)
    (submits : nat -> SubmitResp) (w : World) (e : Error) :
  earlyFailure (store w !! r) image = Some e ->
  startVariations renderSize r image submits w = (Throw e, w).
Proof.
  unfold earlyFailure, startVariations. rewrite bind_eq. unfold atGet.
  destruct (store w !! r) as [f|]; [|by intros [= <-]].
  destruct (negb (JS.truthy (JS.or_else (Prompt f) []))
            || negb (JS.truthy (JS.or_else (subjectUrlOf (Subject f)) [])));
    [by intros [= <-]|].
  destruct image as [d|]; [done|by intros [= <-]].
Qed.

(** X8 — what a successful start does to the record: Status becomes
    [processing], Seen IDs and Failed IDs the empty string, Last Update the
    time of the start, Model the fixed model name; Prompt, Subject and Batch
    Count are kept, and so are Output and Completed At, which a restart does
    not clear; every other record of the table is left alone. *)
Theorem start_resets_record (r : RecordId) (image : option jsstring)
    (submits : nat -> SubmitResp) (w w' : World) (res : StartResult) :
  startVariations renderSize r image submits w = (Ok res, w') ->
  let f := batch r w in
  let f' := batch r w' in
  Status f' = Some (lit "processing") ∧
  SeenIDs f' = Some [] ∧ FailedIDs f' = Some [] ∧
  LastUpdate f' = Some (clock w) ∧
  Model f' = Some (lit "Seedream v4 (edit-sequential)") ∧
  Size f' = Some (renderSize (Size f)) ∧
  Prompt f' = Prompt f ∧ Subject f' = Subject f ∧ BatchCount f' = BatchCount f ∧
  Output f' = Output f ∧ CompletedAt f' = CompletedAt f ∧
  (∀ r', r' ≠ r -> store w' !! r' = store w !! r').
Proof.
  intros E f0 f0'.
  destruct (startVariations_Ok_inv _ _ _ _ _ _ E) as (f & d & H & -> & Hp & Hs).
  destruct (startVariations_world r d submits w f H Hp Hs) as (w2 & E2 & Hst & _).
  rewrite E in E2. injection E2 as _ <-.
  unfold f0, f0', batch. rewrite Hst, lookup_insert_eq, H. simpl.
  split_and!; try done.
  intros r' Hr. by rewrite lookup_insert_ne.
Qed.

(** X9 — every id a start returns is registered for its record, and the
    registry loses nothing: after a successful start each returned id maps to
    the record, and every other key maps to what it mapped to before. *)
Theorem start_registers_jobs (r : RecordId) (image : option jsstring)
    (submits : nat -> SubmitResp) (w w' : World) (res : StartResult) :
  startVariations renderSize r image submits w = (Ok res, w') ->
  (∀ id, id ∈ requestIds res -> requestMap w' !! id = Some r) ∧
  (∀ k, k ∉ requestIds res -> requestMap w' !! k = requestMap w !! k).
Proof.
  intros E.
  destruct (startVariations_Ok_inv _ _ _ _ _ _ E) as (f & d & H & -> & Hp & Hs).
  destruct (startVariations_world r d submits w f H Hp Hs) as (w2 & E2 & _ & Hr & _).
  rewrite E in E2. injection E2 as -> <-. simpl. rewrite Hr.
  generalize (omap submittedId (submits <$> seq 0 (Z.to_nat (batchCountOf (BatchCount f))))).
  generalize (requestMap w). clear.
  intros m ids. revert m. induction ids as [|a ids IH] using rev_ind; intros m.
  - split; [intros id Hid; by apply elem_of_nil in Hid|done].
  - rewrite registerAll_app. simpl. destruct (IH m) as [IH1 IH2]. split.
    + intros id Hid. destruct (decide (id = a)) as [->|Hne]; [apply lookup_insert_eq|].
      rewrite lookup_insert_ne by done. apply IH1.
      apply elem_of_app in Hid as [?|Hid]; [done|].
      by apply list_elem_of_singleton in Hid.
    + intros k Hk. rewrite not_elem_of_app, not_elem_of_cons in Hk.
      destruct Hk as [Hk1 [Hk2 _]]. rewrite lookup_insert_ne by done. by apply IH2.
Qed.


(** X11 — pollers are started after the loop, not during it: the calls a
    successful start makes are the [batchCount] submissions, in order, and
    after the last of them one poller per returned id, in the order of the
    ids. *)
Theorem start_spawns_pollers_last (r : RecordId) (image : option jsstring)
    (submits : nat -> SubmitResp) (w w' : World) (res : StartResult) :
  startVariations renderSize r image submits w = (Ok res, w') ->
  let n := Z.to_nat (batchCountOf (BatchCount (batch r w))) in
  trace w' = trace w ++ ((fun k => EvSubmit r (submits k)) <$> seq 0 n)
                     ++ ((fun rid => EvPoller rid r) <$> requestIds res).
Proof.
  intros E.
  destruct (startVariations_Ok_inv _ _ _ _ _ _ E) as (f & d & H & -> & Hp & Hs).
  destruct (startVariations_world r d submits w f H Hp Hs) as (w2 & E2 & _ & _ & _ & Ht).
  rewrite E in E2. injection E2 as -> <-.
  unfold batch. by rewrite H.
Qed.

End MoreFanOut.

Lemma start_fails_before_writing_witness :
  let w := sampleWorld (sampleBatch "idle" "" "" "" (Some 3) None) 1000 in
  earlyFailure (store w !! recA) None = Some ImageFetchFailed ∧
  startVariations sampleSize recA None acceptAll w = (Throw ImageFetchFailed, w).
Proof.
  intros w.
  assert (H : earlyFailure (store w !! recA) None = Some ImageFetchFailed)
    by by vm_compute.
  split; [exact H|].
  exact (start_fails_before_writing sampleSize recA None acceptAll w ImageFetchFailed H).
Defined.

Lemma start_resets_record_witness :
  let w := sampleWorld (sampleBatch "completed" "old1" "old1" "" (Some 2) (Some 100)) 1000 in
  ∃ res w',
    startVariations sampleSize recA (Some sampleImage) acceptAll w = (Ok res, w') ∧
    Status (batch recA w') = Some (lit "processing") ∧
    CompletedAt (batch recA w') = Some 100.
Proof.
  intros w.
  destruct (startVariations_world sampleSize recA sampleImage acceptAll w
              (batch recA w)) as (w' & E & _); [by vm_compute..|].
  match type of E with _ = (Ok ?x, _) => set (res := x) in * end.
  exists res, w'. split; [exact E|].
  destruct (start_resets_record sampleSize recA (Some sampleImage) acceptAll w w' res E)
    as (H1 & _ & _ & _ & _ & _ & _ & _ & _ & _ & H2 & _).
  split; [exact H1|]. rewrite H2. by vm_compute.
Defined.

Lemma start_registers_jobs_witness :
  let w := sampleWorld (sampleBatch "idle" "" "" "" (Some 3) None) 1000 in
  ∃ res w',
    startVariations sampleSize recA (Some sampleImage) rejectOdd w = (Ok res, w') ∧
    requestMap w' !! lit "job2" = Some recA.
Proof.
  intros w.
  destruct (startVariations_world sampleSize recA sampleImage rejectOdd w
              (batch recA w)) as (w' & E & _); [by vm_compute..|].
  match type of E with _ = (Ok ?x, _) => set (res := x) in * end.
  exists res, w'. split; [exact E|].
  apply (start_registers_jobs sampleSize recA (Some sampleImage) rejectOdd w w' res E).
  unfold res. vm_compute. right. by left.
Defined.


Lemma start_spawns_pollers_last_witness :
  let w := sampleWorld (sampleBatch "idle" "" "" "" (Some 2) None) 1000 in
  ∃ res w',
    startVariations sampleSize recA (Some sampleImage) acceptAll w = (Ok res, w') ∧
    trace w' = [EvSubmit recA (acceptAll 0); EvSubmit recA (acceptAll 1);
                EvPoller (lit "job0") recA; EvPoller (lit "job1") recA].
Proof.
  intros w.
  destruct (startVariations_world sampleSize recA sampleImage acceptAll w
              (batch recA w)) as (w' & E & _); [by vm_compute..|].
  match type of E with _ = (Ok ?x, _) => set (res := x) in * end.
  exists res, w'. split; [exact E|].
  rewrite (start_spawns_pollers_last sampleSize recA (Some sampleImage) acceptAll w w' res E).
  unfold res. by vm_compute.
Defined.

(** ** The push listener, continued *)

Section MoreWebhook.
Import Reconciler.

(** X12 — what the push listener does for a registered job: a status
    that lower-cases to [completed] or [succeeded] makes the reconciler call
    for a success with the outputs of the notification (none if [output] is
    not a list); one that lower-cases to [failed] or [error] makes the call
    for a failure without outputs, whatever outputs were sent; the world
    left is the one that call leaves, the answer is 200 if the call returns
    and 500 if it throws, and a call that returns leaves the record the
    reconciler makes of it.  Any other status is answered 200 and changes
    nothing. *)
Theorem webhook_known_job (b : WebhookBody) (w : World) (k : jsstring) (r : RecordId) :
  or_opt (wb_request_id b) (wb_id b) = Some k ->
  requestMap w !! k = Some r ->
  r ≠ [] ->
  let status := JS.toLowerCase (JS.or_else (wb_status b) []) in
  let outs := match wb_output b with Some o => o | None => [] end in
  let answer (m : Res unit * World) :=
    (match m.1 with
     | Ok _ => {| code := 200; ok := Some true |}
     | Throw _ => {| code := 500; ok := None |}
     end, m.2) in
  let effect (o : list jsstring) (fl : bool) :=
    (appendOutputs r o k fl w).1 = Ok tt ->
    batch r (webhook b w).2 = reconciled (clock w) o k fl (batch r w) in
  if JS.includes successWords status then
    webhook b w = answer (appendOutputs r outs k false w) ∧ effect outs false
  else if JS.includes failureWords status then
    webhook b w = answer (appendOutputs r [] k true w) ∧ effect [] true
  else webhook b w = ({| code := 200; ok := Some true |}, w).
Proof.
  intros Hk Hr Hne status outs answer effect.
  assert (Ht : JS.truthy r = true) by (by destruct r).
  assert (Heff : ∀ o fl w', (appendOutputs r o k fl w).1 = Ok tt ->
                   w' = (appendOutputs r o k fl w).2 ->
                   batch r w' = reconciled (clock w) o k fl (batch r w)).
  { intros o fl w' Hok ->. destruct (store w !! r) as [f|] eqn:Hf.
    - rewrite (appendOutputs_present _ _ _ _ _ f Hf). unfold batch. simpl.
      by rewrite lookup_insert_eq, Hf.
    - by rewrite appendOutputs_missing in Hok. }
  assert (E : ∀ m : M unit, (match m w with
                             | (Ok _, w') => ({| code := 200; ok := Some true |}, w')
                             | (Throw _, w') => ({| code := 500; ok := None |}, w')
                             end) = answer (m w)).
  { intros m. unfold answer. by destruct (m w) as [[|] ?]. }
  unfold effect, webhook. rewrite Hk, Hr, Ht. simpl negb. cbv iota.
  fold status. fold outs.
  destruct (JS.includes successWords status).
  - rewrite E. split; [done|]. intros Hok. by apply Heff.
  - destruct (JS.includes failureWords status).
    + rewrite E. split; [done|]. intros Hok. by apply Heff.
    + done.
Qed.

Lemma webhook_known_job_witness :
  let w := mkWorld {[ recA := sampleBatch "processing" "A" "" "" None None ]}
                   {[ lit "A" := recA ]} 1000 [] in
  let b := mkWebhook None (Some (lit "A")) (Some (lit "FAILED")) (Some [lit "u1"]) in
  (appendOutputs recA [] (lit "A") true w).1 = Ok tt ∧
  code (webhook b w).1 = 200 ∧
  batch recA (webhook b w).2 = reconciled 1000 [] (lit "A") true (batch recA w) ∧
  outputList (batch recA (webhook b w).2) = [].
Proof.
  intros w b.
  assert (Hok : (appendOutputs recA [] (lit "A") true w).1 = Ok tt) by by vm_compute.
  pose proof (webhook_known_job b w (lit "A") recA) as H.
  specialize (H ltac:(by vm_compute) ltac:(by vm_compute) ltac:(by vm_compute)).
  cbv zeta in H.
  change (JS.includes successWords (JS.toLowerCase (JS.or_else (wb_status b) [])))
    with false in H.
  change (JS.includes failureWords (JS.toLowerCase (JS.or_else (wb_status b) [])))
    with true in H.
  cbv iota in H. destruct H as [E Heff].
  split_and!; [exact Hok|by rewrite E, Hok|exact (Heff Hok)|by vm_compute].
Defined.

(** X13 — a terminal notification for a registered job whose record
    does not exist is answered with 500: the reconciler is called, its read
    fails, and nothing in the table or the registry changes. *)
Theorem webhook_missing_record (b : WebhookBody) (w : World) (k : jsstring)
    (r : RecordId) :
  or_opt (wb_request_id b) (wb_id b) = Some k ->
  requestMap w !! k = Some r ->
  r ≠ [] ->
  store w !! r = None ->
  let status := JS.toLowerCase (JS.or_else (wb_status b) []) in
  JS.includes successWords status || JS.includes failureWords status = true ->
  code (webhook b w).1 = 500 ∧
  store (webhook b w).2 = store w ∧
  requestMap (webhook b w).2 = requestMap w ∧
  length (reconcilesOf (trace (webhook b w).2)) = S (length (reconcilesOf (trace w))).
Proof.
  intros Hk Hr Hne Hf status Hst.
  assert (Ht : JS.truthy r = true) by (by destruct r).
  unfold webhook. rewrite Hk, Hr, Ht. simpl negb. cbv iota. fold status.
  assert (Hl : ∀ e, length (reconcilesOf (trace w ++ [e]))
                    = (length (reconcilesOf (trace w)) + length (reconcilesOf [e]))%nat).
  { intros e. unfold reconcilesOf. by rewrite omap_app, length_app. }
  destruct (JS.includes successWords status).
  - rewrite appendOutputs_missing by done. simpl. rewrite Hl. simpl.
    split_and!; try done. lia.
  - destruct (JS.includes failureWords status); [|done].
    rewrite appendOutputs_missing by done. simpl. rewrite Hl. simpl.
    split_and!; try done. lia.
Qed.

Lemma webhook_missing_record_witness :
  let w := mkWorld ∅ {[ lit "A" := recA ]} 1000 [] in
  let b := mkWebhook (Some (lit "A")) None (Some (lit "completed")) None in
  code (webhook b w).1 = 500.
Proof.
  intros w b.
  apply (webhook_missing_record b w (lit "A") recA); by vm_compute.
Defined.

End MoreWebhook.

(** ** The poller, continued *)

Section MorePoller.
Import Reconciler.

Lemma outcomeOf_pending resp : pending resp = true -> outcomeOf resp = ([], true).
Proof.
  unfold pending, outcomeOf. destruct (observed resp) as [[st outs]|]; [|done].
  intros H. apply andb_true_iff in H as [H _]. apply negb_true_iff in H. by rewrite H.
Qed.

(** The turn that ends a poll: the reconciler is called for what the answer
    says; if that call throws inside the [try], it is called once more. *)
Lemma pollBody_final j r resp w :
  pending resp = false ->
  let w1 := setClock (clock w + Z.of_N (latency resp)) (addEvent (EvFetch j resp) w) in
  ∃ res w' rest,
    pollBody j r resp w = (res, w') ∧ res ≠ Ok false ∧
    trace w' = trace w1 ++ EvReconcile r j (outcomeOf resp).1 (outcomeOf resp).2 :: rest ∧
    fetchesOf rest = [] ∧
    clock w' = clock w1 ∧
    ((appendOutputs r (outcomeOf resp).1 j (outcomeOf resp).2 w1).1 = Ok tt ->
     res = Ok true ∧
     w' = (appendOutputs r (outcomeOf resp).1 j (outcomeOf resp).2 w1).2 ∧
     rest = []).
Proof.
  intros Hp w1. unfold pending, outcomeOf, pollBody, try_catch in *.
  rewrite bind_eq, getResult_eq. fold w1.
  assert (G1 : ∀ o fl,
    ∃ res w' rest,
      (run! appendOutputs r o j fl in ret true) w1 = (res, w') ∧ res ≠ Ok false ∧
      trace w' = trace w1 ++ EvReconcile r j o fl :: rest ∧ fetchesOf rest = [] ∧
      clock w' = clock w1 ∧
      ((appendOutputs r o j fl w1).1 = Ok tt ->
       res = Ok true ∧ w' = (appendOutputs r o j fl w1).2 ∧ rest = [])).
  { intros o fl. rewrite bind_eq.
    destruct (appendOutputs_trace r o j fl w1) as [Ht Hc].
    destruct (appendOutputs r o j fl w1) as [[[]|e] w2]; simpl in *.
    - exists (Ok true), w2, []. split_and!; done.
    - exists (Throw e), w2, []. split_and!; done. }
  assert (G2 : ∀ o fl,
    ∃ res w' rest,
      match (run! appendOutputs r o j fl in ret true) w1 with
      | (Ok a, w') => (Ok a, w')
      | (Throw _, w') => (run! appendOutputs r [] j true in ret true) w'
      end = (res, w') ∧ res ≠ Ok false ∧
      trace w' = trace w1 ++ EvReconcile r j o fl :: rest ∧ fetchesOf rest = [] ∧
      clock w' = clock w1 ∧
      ((appendOutputs r o j fl w1).1 = Ok tt ->
       res = Ok true ∧ w' = (appendOutputs r o j fl w1).2 ∧ rest = [])).
  { intros o fl. rewrite bind_eq.
    destruct (appendOutputs_trace r o j fl w1) as [Ht Hc].
    destruct (appendOutputs r o j fl w1) as [[[]|e] w2]; simpl in *.
    - exists (Ok true), w2, []. split_and!; done.
    - rewrite bind_eq.
      destruct (appendOutputs_trace r [] j true w2) as [Ht2 Hc2].
      destruct (appendOutputs r [] j true w2) as [[[]|e2] w3]; simpl in *.
      + exists (Ok true), w3, [EvReconcile r j [] true].
        split_and!; [done|done| |done|congruence|done].
        by rewrite Ht2, Ht, <- app_assoc.
      + exists (Throw e2), w3, [EvReconcile r j [] true].
        split_and!; [done|done| |done|congruence|done].
        by rewrite Ht2, Ht, <- app_assoc. }
  destruct (observed resp) as [[st outs]|]; [|apply G1].
  destruct (JS.includes successWords st); [apply G2|].
  destruct (JS.includes failureWords st); [apply G2|done].
Qed.

(** Every poll: status requests, then the reconciler call for the last
    answer, made in a world [wc] that differs from the first by the clock
    and the status requests. *)
Lemma pollLoop_call fuel : ∀ timeout j r fetches k w res w',
  pollLoop fuel timeout j r fetches k w = Some (res, w') ->
  ∃ allf wc o fl rest,
    store wc = store w ∧ requestMap wc = requestMap w ∧ clock w <= clock wc ∧
    trace wc = trace w ++ (EvFetch j <$> allf) ∧
    (o, fl) = match last allf with
              | Some resp => outcomeOf resp
              | None => ([], true)
              end ∧
    trace w' = trace wc ++ EvReconcile r j o fl :: rest ∧
    fetchesOf rest = [] ∧
    ((appendOutputs r o j fl wc).1 = Ok tt ->
     res = Ok tt ∧ w' = (appendOutputs r o j fl wc).2 ∧ rest = []).
Proof.
  induction fuel as [|fuel IH]; intros timeout j r fetches k w res w' H; [done|].
  cbn [pollLoop] in H. destruct (Z.ltb_spec (clock w) timeout) as [Hlt|Hge].
  - destruct (pending (fetches k)) eqn:Hp.
    + rewrite pollBody_pending in H by done.
      apply IH in H as (allf & wc & o & fl & rest & Hs & Hr & Hc & Ht & Ho & Ht' & Hf & Hok).
      simpl in Hs, Hr, Hc, Ht.
      exists (fetches k :: allf), wc, o, fl, rest.
      split_and!; [done|done|lia| | |done|done|done].
      * rewrite Ht. simpl. by rewrite <- app_assoc.
      * rewrite last_cons. destruct (last allf); [done|].
        by rewrite outcomeOf_pending.
    + destruct (pollBody_final j r (fetches k) w Hp)
        as (res1 & w1 & rest & E & Hres & Ht & Hf & Hc & Hok).
      rewrite E in H. simpl in Ht, Hc.
      assert (w1 = w') as -> by (destruct res1 as [[]|]; congruence).
      exists [fetches k],
        (setClock (clock w + Z.of_N (latency (fetches k)))
           (addEvent (EvFetch j (fetches k)) w)),
        (outcomeOf (fetches k)).1, (outcomeOf (fetches k)).2, rest.
      split_and!; [..|exact Ht|exact Hf|]; [done|done|simpl; lia|done| |].
      * simpl. by destruct (outcomeOf (fetches k)).
      * intros Hcall. destruct (Hok Hcall) as (-> & ? & ?).
        by injection H as <-.
  - injection H as H. destruct (appendOutputs_trace r [] j true w) as [Ht _].
    exists [], w, [], true, []. rewrite H in Ht. simpl in Ht.
    split_and!; [done|done|lia|by rewrite app_nil_r|done|done|done|].
    intros Hok. rewrite H in Hok |- *. simpl in *. by subst res.
Qed.

(** X14 — a poller reconciles once unless the reconciler fails: every
    run makes its first reconciler call after its last status request, in a
    world that differs from the one it started in only by the clock and the
    status requests made; the call is a success with the outputs of the last
    answer if that answer has a success status, and a failure without
    outputs in every other case (failure status, error, or deadline).  If
    that call returns, the run returns, it has made no other reconciler
    call, the world it leaves is the one the call leaves, and the record is
    the one the reconciler makes of it; the registry is untouched. *)
Theorem poller_single_call (fuel : nat) (j : jsstring) (r : RecordId)
    (fetches : nat -> FetchResp) (w : World) :
  (pollFuel <= fuel)%nat ->
  ∃ res w' wc allf,
    pollUntilDone fuel j r fetches w = Some (res, w') ∧
    store wc = store w ∧ requestMap wc = requestMap w ∧ clock w <= clock wc ∧
    trace wc = trace w ++ (EvFetch j <$> allf) ∧
    let outcome := match last allf with
                   | Some resp => outcomeOf resp
                   | None => ([], true)
                   end in
    (∃ rest, trace w' = trace wc ++ EvReconcile r j outcome.1 outcome.2 :: rest ∧
             fetchesOf rest = []) ∧
    ((appendOutputs r outcome.1 j outcome.2 wc).1 = Ok tt ->
     res = Ok tt ∧
     w' = (appendOutputs r outcome.1 j outcome.2 wc).2 ∧
     trace w' = trace w ++ (EvFetch j <$> allf)
                        ++ [EvReconcile r j outcome.1 outcome.2] ∧
     batch r w' = reconciled (clock wc) outcome.1 j outcome.2 (batch r w) ∧
     requestMap w' = requestMap w).
Proof.
  intros Hfuel. unfold pollUntilDone.
  destruct fuel as [|fuel]; [unfold pollFuel in Hfuel; lia|].
  destruct (pollLoop_total fuel (clock w + 20 * 60 * 1000) j r fetches 0%nat w)
    as [[res w'] E]; [unfold pollFuel in Hfuel; lia|].
  destruct (pollLoop_call _ _ _ _ _ _ _ _ _ E)
    as (allf & wc & o & fl & rest & Hs & Hr & Hc & Ht & Ho & Ht' & Hf & Hok).
  exists res, w', wc, allf.
  split; [exact E|]. do 4 (split; [done|]). cbv zeta. rewrite <- Ho. simpl.
  split; [by exists rest|].
  intros Hcall. destruct (Hok Hcall) as (-> & Hw & ->).
  split_and!; [done|done|by rewrite Ht', Ht, <- app_assoc| |].
  - rewrite Hw. destruct (store wc !! r) as [f|] eqn:Hfr.
    + rewrite (appendOutputs_present _ _ _ _ _ f Hfr). unfold batch. simpl.
      by rewrite lookup_insert_eq, <- Hs, Hfr.
    + by rewrite appendOutputs_missing in Hcall.
  - rewrite Hw. destruct (store wc !! r) as [f|] eqn:Hfr.
    + by rewrite (appendOutputs_present _ _ _ _ _ f Hfr).
    + by rewrite appendOutputs_missing in Hcall.
Qed.

End MorePoller.

Lemma poller_single_call_witness :
  let w := sampleWorld (sampleBatch "processing" "A" "" "" None None) 1000 in
  (pollFuel <= pollFuel)%nat ∧
  ∃ w', pollUntilDone pollFuel (lit "A") recA succeedsThird w = Some (Ok tt, w') ∧
        reconcilesOf (trace w') = [(recA, lit "A", [lit "u1"; lit "u2"], false)] ∧
        isCompleted (batch recA w').
Proof.
  intros w.
  assert (Hfuel : (pollFuel <= pollFuel)%nat) by lia.
  split; [exact Hfuel|].
  destruct (poller_single_call pollFuel (lit "A") recA succeedsThird w Hfuel)
    as (res & w' & wc & allf & E & Hs & _ & _ & Ht & _ & Hok).
  assert (Ew : pollUntilDone pollFuel (lit "A") recA succeedsThird w
               = Some (res, w')) by exact E.
  assert (Etr : match pollUntilDone pollFuel (lit "A") recA succeedsThird w with
                | Some (_, x) => trace x | None => [] end = trace w')
    by (by rewrite E).
  assert (Est : match pollUntilDone pollFuel (lit "A") recA succeedsThird w with
                | Some (_, x) => Status (batch recA x) | None => None end
                = Status (batch recA w'))
    by (by rewrite E).
  assert (Eres : match pollUntilDone pollFuel (lit "A") recA succeedsThird w with
                 | Some (x, _) => x | None => Throw GetResultFailed end = res)
    by (by rewrite E).
  vm_compute in Eres. subst res.
  exists w'. split_and!; [exact E| |].
  - rewrite <- Etr. by vm_compute.
  - unfold isCompleted. rewrite <- Est. by vm_compute.
Defined.

Section PollerBounds.
Import Reconciler.

Lemma requestTime_S fetches i : ∀ k start,
  requestTime fetches k start (S i)
  = requestTime fetches k start i + Z.of_N (latency (fetches (k + i)%nat)) + 7000.
Proof.
  induction i as [|i IH]; intros k start.
  - simpl. by rewrite Nat.add_0_r.
  - change (requestTime fetches k start (S (S i)))
      with (requestTime fetches (S k) (start + Z.of_N (latency (fetches k)) + 7000) (S i)).
    rewrite IH. simpl. by rewrite Nat.add_succ_r.
Qed.

Lemma requestTime_lower fetches i : ∀ k start,
  start + 7000 * Z.of_nat i <= requestTime fetches k start i.
Proof.
  induction i as [|i IH]; intros k start; [simpl; lia|].
  rewrite requestTime_S. specialize (IH k start). lia.
Qed.

(** The status requests of a run are the answers in order, each made at its
    [requestTime], before the deadline. *)
Lemma pollLoop_times fuel : ∀ timeout j r fetches k w res w',
  pollLoop fuel timeout j r fetches k w = Some (res, w') ->
  ∃ m evs,
    trace w' = trace w ++ evs ∧
    fetchesOf evs = fetches <$> seq k m ∧
    (∀ i, (i < m)%nat -> requestTime fetches k (clock w) i < timeout) ∧
    (∀ i, (S i < m)%nat -> pending (fetches (k + i)%nat) = true) ∧
    (Forall (fun x => pending x = true) (fetches <$> seq k m) ->
     timeout <= clock w' ∧ clock w' = requestTime fetches k (clock w) m) ∧
    (∀ l, m = S l -> pending (fetches (k + l)%nat) = false ->
          clock w' = requestTime fetches k (clock w) l
                     + Z.of_N (latency (fetches (k + l)%nat))).
Proof.
  induction fuel as [|fuel IH]; intros timeout j r fetches k w res w' H; [done|].
  cbn [pollLoop] in H. destruct (Z.ltb_spec (clock w) timeout) as [Hlt|Hge].
  - destruct (pending (fetches k)) eqn:Hp.
    + rewrite pollBody_pending in H by done.
      apply IH in H as (m & evs & Ht & Hf & Hbefore & Hpend & Hdead & Hlast).
      simpl in Ht, Hbefore, Hdead, Hlast.
      exists (S m), (EvFetch j (fetches k) :: evs).
      split_and!.
      * by rewrite Ht, <- app_assoc.
      * change (fetchesOf (EvFetch j (fetches k) :: evs))
          with (fetches k :: fetchesOf evs). by rewrite Hf.
      * intros [|i] Hi; [done|]. simpl. apply Hbefore. lia.
      * intros [|i] Hi; [by rewrite Nat.add_0_r|].
        rewrite Nat.add_succ_r. apply Hpend. lia.
      * intros Hall. cbn [seq fmap list_fmap] in Hall.
        apply Forall_cons in Hall as [_ Hall]. by apply Hdead.
      * intros l [= <-] Hl. destruct m as [|m'].
        { rewrite Nat.add_0_r in Hl. congruence. }
        rewrite Nat.add_succ_r in Hl. rewrite Nat.add_succ_r.
        by apply (Hlast m').
    + destruct (pollBody_final j r (fetches k) w Hp)
        as (res1 & w1 & rest & E & Hres & Ht & Hf & Hc & _).
      rewrite E in H. simpl in Ht, Hc.
      assert (w1 = w') as -> by (destruct res1 as [[]|]; congruence).
      exists 1%nat, (EvFetch j (fetches k)
                     :: EvReconcile r j (outcomeOf (fetches k)).1 (outcomeOf (fetches k)).2
                     :: rest).
      split_and!.
      * by rewrite Ht, <- app_assoc.
      * change (fetchesOf (EvFetch j (fetches k) :: ?t)) with (fetches k :: fetchesOf rest).
        by rewrite Hf.
      * intros i Hi. replace i with 0%nat by lia. done.
      * intros i Hi. lia.
      * intros Hall. cbn [seq fmap list_fmap] in Hall.
        apply Forall_cons in Hall as [Hk _]. congruence.
      * intros l [= <-] _. rewrite Nat.add_0_r. simpl. done.
  - injection H as H. destruct (appendOutputs_trace r [] j true w) as [Ht Hc].
    rewrite H in Ht, Hc. simpl in Ht, Hc.
    exists 0%nat, [EvReconcile r j [] true].
    split_and!; [done|done|intros i Hi; lia|intros i Hi; lia| |done].
    intros _. simpl. split; lia.
Qed.

(** X15 — when a poller makes its status requests: the requests of a
    run are the answers 0, 1, ... in order; the first is made at the start,
    each further one as soon as the previous answer has arrived and 7000 ms
    have been slept, so at least 7000 ms after the previous one; every
    request made is made before the deadline of 20 minutes, and only the
    last answer can be terminal.  Hence a run makes at most 172 requests.
    It ends at the arrival of a terminal answer, or at the first loop head
    at or after the deadline. *)
Theorem poller_request_bound (fuel : nat) (j : jsstring) (r : RecordId)
    (fetches : nat -> FetchResp) (w : World) :
  (pollFuel <= fuel)%nat ->
  let at_ := requestTime fetches 0 (clock w) in
  let deadline := clock w + 20 * 60 * 1000 in
  ∃ res w' evs m,
    pollUntilDone fuel j r fetches w = Some (res, w') ∧
    trace w' = trace w ++ evs ∧
    fetchesOf evs = fetches <$> seq 0 m ∧
    (m <= 172)%nat ∧
    at_ 0%nat = clock w ∧
    (∀ i, at_ (S i) = at_ i + Z.of_N (latency (fetches i)) + 7000) ∧
    (∀ i, (i < m)%nat -> at_ i < deadline) ∧
    (∀ i, (S i < m)%nat -> pending (fetches i) = true) ∧
    (Forall (fun x => pending x = true) (fetches <$> seq 0 m) ->
     deadline <= clock w' ∧ clock w' = at_ m) ∧
    (∀ l, m = S l -> pending (fetches l) = false ->
          clock w' = at_ l + Z.of_N (latency (fetches l))).
Proof.
  intros Hfuel at_ deadline. unfold pollUntilDone.
  destruct fuel as [|fuel]; [unfold pollFuel in Hfuel; lia|].
  destruct (pollLoop_total fuel (clock w + 20 * 60 * 1000) j r fetches 0%nat w)
    as [[res w'] E]; [unfold pollFuel in Hfuel; lia|].
  destruct (pollLoop_times _ _ _ _ _ _ _ _ _ E)
    as (m & evs & Ht & Hf & Hbefore & Hpend & Hdead & Hlast).
  exists res, w', evs, m.
  split_and!; [exact E|exact Ht|exact Hf| |done| |exact Hbefore|exact Hpend|exact Hdead|exact Hlast].
  - destruct m as [|m']; [lia|].
    specialize (Hbefore m' ltac:(lia)).
    pose proof (requestTime_lower fetches m' 0%nat (clock w)). lia.
  - intros i. unfold at_. by rewrite requestTime_S.
Qed.

(** X16 — the [catch] of the poller also catches the reconciler: when
    the record does not exist and the first answer carries a terminal status,
    the reconciler is called for that status, its read fails, it is called a
    second time for a failure without outputs, that read fails too, and the
    error leaves the poller; the table is unchanged. *)
Theorem poller_calls_again_after_error (fuel : nat) (j : jsstring) (r : RecordId)
    (fetches : nat -> FetchResp) (w : World) :
  (0 < fuel)%nat ->
  store w !! r = None ->
  errored (fetches 0%nat) = false ->
  pending (fetches 0%nat) = false ->
  ∃ w',
    pollUntilDone fuel j r fetches w = Some (Throw AirtableGetFailed, w') ∧
    trace w' = trace w ++ [EvFetch j (fetches 0%nat);
                           EvReconcile r j (outcomeOf (fetches 0%nat)).1
                                           (outcomeOf (fetches 0%nat)).2;
                           EvReconcile r j [] true] ∧
    store w' = store w.
Proof.
  intros Hfuel Hf He Hp. destruct fuel as [|fuel]; [lia|].
  unfold pollUntilDone. cbn [pollLoop].
  destruct (Z.ltb_spec (clock w) (clock w + 20 * 60 * 1000)) as [_|?]; [|lia].
  unfold errored, pending, outcomeOf, pollBody, try_catch in *.
  rewrite bind_eq, getResult_eq.
  set (w1 := setClock _ _).
  assert (H1 : store w1 !! r = None) by done.
  assert (G : ∀ o fl,
    match (run! appendOutputs r o j fl in ret true) w1 with
    | (Ok a, w') => (Ok a, w')
    | (Throw _, w') => (run! appendOutputs r [] j true in ret true) w'
    end
    = (Throw AirtableGetFailed,
       mkWorld (store w) (requestMap w) (clock w + Z.of_N (latency (fetches 0%nat)))
         (trace w ++ [EvFetch j (fetches 0%nat); EvReconcile r j o fl;
                      EvReconcile r j [] true]))).
  { intros o fl. rewrite bind_eq, (appendOutputs_missing _ _ _ _ _ H1).
    rewrite bind_eq, appendOutputs_missing by done.
    unfold addEvent, w1. simpl. by rewrite <- !app_assoc. }
  destruct (observed (fetches 0%nat)) as [[st outs]|]; [|done].
  destruct (JS.includes successWords st).
  - rewrite G. eexists. split_and!; done.
  - destruct (JS.includes failureWords st); [|done].
    rewrite G. eexists. split_and!; done.
Qed.

End PollerBounds.

Lemma poller_request_bound_witness :
  let w := sampleWorld (sampleBatch "processing" "A" "" "" None None) 1000 in
  (pollFuel <= pollFuel)%nat ∧
  ∃ res w', pollUntilDone pollFuel (lit "A") recA answersLate w = Some (res, w') ∧
            length (fetchesOf (trace w')) = 172%nat ∧
            clock w' = 1000 + 171 * 7000 + 5000.
Proof.
  intros w.
  assert (Hfuel : (pollFuel <= pollFuel)%nat) by lia.
  split; [exact Hfuel|].
  destruct (poller_request_bound pollFuel (lit "A") recA answersLate w Hfuel)
    as (res & w' & evs & m & E & Ht & Hf & _ & _ & _ & _ & _ & _ & Hlast).
  exists res, w'.
  assert (Etr : match pollUntilDone pollFuel (lit "A") recA answersLate w with
                | Some (_, x) => trace x | None => [] end = trace w')
    by (by rewrite E).
  assert (Hlen : length (fetchesOf (trace w')) = 172%nat)
    by (rewrite <- Etr; by vm_compute).
  split_and!; [exact E|exact Hlen|].
  assert (Hm : m = 172%nat).
  { change (trace w ++ evs) with evs in Ht. rewrite Ht, Hf, length_fmap, length_seq in Hlen.
    exact Hlen. }
  rewrite (Hlast 171%nat Hm ltac:(by vm_compute)). by vm_compute.
Defined.

Lemma poller_calls_again_after_error_witness :
  let w := mkWorld ∅ ∅ 1000 [] in
  ∃ w', pollUntilDone pollFuel (lit "A") recA (fun _ => answersLate 171) w
        = Some (Throw AirtableGetFailed, w') ∧
        reconcilesOf (trace w')
        = [(recA, lit "A", [lit "u1"], false); (recA, lit "A", [], true)].
Proof.
  intros w.
  destruct (poller_calls_again_after_error pollFuel (lit "A") recA
              (fun _ => answersLate 171) w) as (w' & E & Ht & _);
    [unfold pollFuel; lia|by vm_compute|by vm_compute|by vm_compute|].
  exists w'. split; [exact E|]. rewrite Ht. by vm_compute.
Defined.

(** ** Two reconciler calls that overlap *)

Section Overlap.
Import Reconciler.

(** The call is its read followed by the rest. *)
Lemma appendOutputs_split r outs j fl :
  appendOutputs r outs j fl
  = (run! emit (EvReconcile r j outs fl) in
     let! rec := atGet r in
     appendOutputsWrite rec r outs j fl).
Proof. reflexivity. Qed.

Lemma appendOutputsWrite_present rec r outs j fl w f :
  store w !! r = Some f ->
  appendOutputsWrite rec r outs j fl w
  = (Ok tt,
     setStore (<[r := completedIfAllSeen (clock w)
                        (applyPatch (appendPatch (clock w) outs j fl rec) f)]> (store w))
              w).
Proof.
  intros H. unfold appendOutputsWrite. rewrite bind_eq. unfold nowISO, DateNow.
  rewrite bind_eq, (atPatch_Some _ _ _ f) by done.
  erewrite markCompleted_present by (simpl; apply lookup_insert_eq).
  unfold completedIfAllSeen. f_equal.
  destruct (allSeen _ _); unfold setStore; simpl; [|done].
  by rewrite insert_insert_eq.
Qed.

Lemma SeenIDs_completedIfAllSeen t f : SeenIDs (completedIfAllSeen t f) = SeenIDs f.
Proof. unfold completedIfAllSeen. by destruct (allSeen _ _). Qed.

Lemma Output_completedIfAllSeen t f : Output (completedIfAllSeen t f) = Output f.
Proof. unfold completedIfAllSeen. by destruct (allSeen _ _). Qed.

(** X17 — the read-modify-write of the reconciler is not protected: when
    two calls on one record both read before either writes, both return
    normally and the second write replaces the first.  Seen IDs is then what
    the second call alone makes of the record both read, and so is Output:
    the job id of the first call, unless it was there before or is part of
    the second id, is not in Seen IDs, and the outputs of the first call are
    gone.  Taken one after the other, the same two calls leave the first id
    in Seen IDs. *)
Theorem overlapping_calls_lose_update (r : RecordId)
    (outs1 : list jsstring) (j1 : jsstring) (fl1 : bool)
    (outs2 : list jsstring) (j2 : jsstring) (fl2 : bool) (w : World) (f : Fields) :
  store w !! r = Some f ->
  ∃ w',
    overlapped r outs1 j1 fl1 outs2 j2 fl2 w = (Ok tt, w') ∧
    reconcilesOf (trace w')
    = reconcilesOf (trace w) ++ [(r, j1, outs1, fl1); (r, j2, outs2, fl2)] ∧
    SeenIDs (batch r w') = Some (mergeIds (SeenIDs f) [j2]) ∧
    outputList (batch r w') = outputList f ++ imap (outputEntry j2) outs2 ∧
    (j1 ∉ seenIds f -> j1 ∉ tokensOf j2 -> j1 ∉ seenIds (batch r w')) ∧
    (is_token j1 ->
     j1 ∈ seenIds (batch r (appendOutputs r outs2 j2 fl2
                              (appendOutputs r outs1 j1 fl1 w).2).2)).
Proof.
  intros H. unfold overlapped.
  rewrite bind_eq. unfold emit. rewrite bind_eq, (atGet_Some _ _ f) by done.
  rewrite bind_eq, bind_eq, (atGet_Some _ _ f) by done.
  rewrite bind_eq.
  erewrite appendOutputsWrite_present by (simpl; exact H).
  erewrite appendOutputsWrite_present by (simpl; apply lookup_insert_eq).
  eexists. split; [reflexivity|].
  unfold batch. simpl. rewrite lookup_insert_eq.
  split_and!.
  - unfold reconcilesOf. by rewrite <- app_assoc, omap_app.
  - by rewrite SeenIDs_completedIfAllSeen.
  - unfold outputList at 1. by rewrite Output_completedIfAllSeen.
  - intros Hn1 Hn2. unfold seenIds at 1. rewrite SeenIDs_completedIfAllSeen. simpl.
    rewrite IdFacts.elem_of_parse_merge. intros [?|(x & Hx & ?)]; [done|].
    by apply list_elem_of_singleton in Hx as ->.
  - intros Htok.
    rewrite (appendOutputs_present _ _ _ _ _ f H).
    erewrite appendOutputs_present by (simpl; apply lookup_insert_eq).
    simpl. rewrite lookup_insert_eq.
    apply elem_of_seenIds_reconciled. left. apply elem_of_seenIds_reconciled. right.
    rewrite IdFacts.tokensOf_token by done. by left.
Qed.

End Overlap.

Lemma overlapping_calls_lose_update_witness :
  let w := sampleWorld (sampleBatch "processing" "A, B" "" "" None None) 1000 in
  ∃ w',
    overlapped recA [lit "u1"] (lit "A") false [] (lit "B") true w = (Ok tt, w') ∧
    seenIds (batch recA w') = [lit "B"] ∧
    outputList (batch recA w') = [] ∧
    ¬ isCompleted (batch recA w').
Proof.
  intros w.
  destruct (overlapping_calls_lose_update recA [lit "u1"] (lit "A") false
              [] (lit "B") true w (batch recA w)) as (w' & E & _);
    [by vm_compute|].
  exists w'. split; [exact E|].
  assert (Ew : (overlapped recA [lit "u1"] (lit "A") false [] (lit "B") true w).2 = w')
    by (by rewrite E).
  rewrite <- Ew. split_and!; [by vm_compute|by vm_compute|].
  intros Hc. vm_compute in Hc. discriminate.
Defined.
